(** * Topology: the peer registry, path cache, root set and physical-path
    configuration table of node/Topology.hpp, embedded shallowly.

    The class is embedded as a record of its data members and one Rocq
    function per member function.  Member functions that only read are
    functions of the record; the two that write ([add], [getPath]) are
    computations in a small state-and-outcome monad.  The embedding is
    sequential: the read/write mutexes are kept as (inert) steps so that the
    functions read like the code. *)

From Stdlib Require Import ZArith.
From stdpp Require Import gmap list sorting.

Local Open Scope Z_scope.

(** ** Outcomes of a call

    A call either returns a value, leaves by a C++ exception, or has no
    defined behaviour (a null [SharedPtr] dereferenced, an array read out of
    range). *)
Inductive outcome (A : Type) : Type :=
  | Returned (a : A)
  | Thrown
  | Undefined.
Arguments Returned {A} a.
Arguments Thrown {A}.
Arguments Undefined {A}.

#[global] Instance outcome_ret : MRet outcome := fun _ a => Returned a.
#[global] Instance outcome_bind : MBind outcome := fun _ _ f m =>
  match m with
  | Returned a => f a
  | Thrown => Thrown
  | Undefined => Undefined
  end.

(** [SharedPtr<T>]: either null or a handle to an object. *)
Abbreviation SharedPtr := option (only parsing).

(** [if (p)] on a [SharedPtr]. *)
Definition SharedPtr_bool {T} (p : SharedPtr T) : bool :=
  match p with Some _ => true | None => false end.

(** [p->...]: dereferencing a null pointer is undefined. *)
Definition deref {T} (p : SharedPtr T) : outcome T :=
  match p with Some o => Returned o | None => Undefined end.

(** [a[i]] on a built-in array of [length a] elements. *)
Definition array_get {T} (a : list T) (i : nat) : outcome T :=
  match a !! i with Some x => Returned x | None => Undefined end.

(** [for (unsigned int i = i0, j = i0 + n; i < j; ++i) body(i)], where the
    body either leaves the function with [return r] ([Some r]) or falls
    through to the next iteration ([None]).  [n] counts the iterations
    left. *)
Fixpoint for_range {R} (body : nat → outcome (option R)) (i n : nat)
  : outcome (option R) :=
  match n with
  | O => Returned None
  | S n' =>
      match body i with
      | Returned None => for_range body (S i) n'
      | r => r
      end
  end.

(** [ZT_PhysicalPathConfiguration] (include/ZeroTierOne.h): the two members
    the class reads. *)
Record ZT_PhysicalPathConfiguration := {
  trustedPathId : Z;   (* uint64_t *)
  mtu : Z              (* int *)
}.

(** The value an [unsigned int] variable takes when an [int] is assigned to
    it: the [int] modulo 2^32 ([mtu = _physicalPathConfig[i].second.mtu]
    stores the entry's [int] in the caller's [unsigned int &]). *)
Definition unsigned_int (z : Z) : Z := z mod 2 ^ 32.

(** ** The collaborating classes

    [Address], [Identity], [InetAddress], [Peer] and [Path::HashKey] are
    declared in headers of their own.  They enter as an interface: the types,
    the comparisons and hashes the containers need, and the member functions
    Topology.hpp calls on them. *)
Class Collaborators := {
  Address : Type;
  Identity : Type;
  InetAddress : Type;
  HashKey : Type;
  Peer : Type;
  Address_eq_dec :: EqDecision Address;
  Address_countable :: Countable Address;
  Identity_eq_dec :: EqDecision Identity;
  Identity_countable :: Countable Identity;
  HashKey_eq_dec :: EqDecision HashKey;
  HashKey_countable :: Countable HashKey;
  (** [Identity::address()] and the default-constructed [Identity()]. *)
  Identity_address : Identity → Address;
  Identity_null : Identity;
  (** [Peer::address()], [Peer::identity()], and the latency of a peer as
      measured at a given time. *)
  Peer_address : Peer → Address;
  Peer_identity : Peer → Identity;
  Peer_latency : Peer → Z → Z;
  (** [net.containsAddress(addr)]. *)
  containsAddress : InetAddress → InetAddress → bool;
  (** [Path::HashKey(l, r)]. *)
  Path_HashKey : Z → InetAddress → HashKey;
  (** Capacity of the physical-path configuration array. *)
  ZT_MAX_CONFIGURABLE_PATHS : nat
}.

Section Topology.
Context {env : Collaborators}.

(** A [Path] object (Path.hpp): its identity in the free store and the
    arguments [Path(l, r)] was constructed from. *)
Record Path := {
  Path_id : nat;
  Path_localSocket : Z;
  Path_addr : InetAddress
}.

(** The data members of [class Topology].  [RR] is an opaque pointer that is
    only handed through; the two mutexes carry no data in a sequential
    run.  A [Hashtable<K,V>] is a finite map from [K] to [V]; a slot can hold
    a null [SharedPtr]. *)
Record Topology := {
  _myIdentity : Identity;
  _physicalPathConfig : list (InetAddress * ZT_PhysicalPathConfiguration);
  _numConfiguredPhysicalPaths : nat;
  _peers : gmap Address (SharedPtr Peer);
  _paths : gmap HashKey (SharedPtr Path);
  _roots : gset Identity;
  _rootPeers : list (SharedPtr Peer)
}.

Definition set_peers (f : gmap Address (SharedPtr Peer) → gmap Address (SharedPtr Peer))
    (T : Topology) : Topology :=
  {| _myIdentity := _myIdentity T;
     _physicalPathConfig := _physicalPathConfig T;
     _numConfiguredPhysicalPaths := _numConfiguredPhysicalPaths T;
     _peers := f (_peers T);
     _paths := _paths T;
     _roots := _roots T;
     _rootPeers := _rootPeers T |}.

Definition set_paths (f : gmap HashKey (SharedPtr Path) → gmap HashKey (SharedPtr Path))
    (T : Topology) : Topology :=
  {| _myIdentity := _myIdentity T;
     _physicalPathConfig := _physicalPathConfig T;
     _numConfiguredPhysicalPaths := _numConfiguredPhysicalPaths T;
     _peers := _peers T;
     _paths := f (_paths T);
     _roots := _roots T;
     _rootPeers := _rootPeers T |}.

Definition set_roots (f : gset Identity → gset Identity) (T : Topology) : Topology :=
  {| _myIdentity := _myIdentity T;
     _physicalPathConfig := _physicalPathConfig T;
     _numConfiguredPhysicalPaths := _numConfiguredPhysicalPaths T;
     _peers := _peers T;
     _paths := _paths T;
     _roots := f (_roots T);
     _rootPeers := _rootPeers T |}.

Definition set_rootPeers (f : list (SharedPtr Peer) → list (SharedPtr Peer))
    (T : Topology) : Topology :=
  {| _myIdentity := _myIdentity T;
     _physicalPathConfig := _physicalPathConfig T;
     _numConfiguredPhysicalPaths := _numConfiguredPhysicalPaths T;
     _peers := _peers T;
     _paths := _paths T;
     _roots := _roots T;
     _rootPeers := f (_rootPeers T) |}.

(** ** The state a call runs in, and the monad of calls

    Besides the object itself a call sees the free store, of which only the
    [Path] objects constructed so far matter: [new Path(l, r)] appends
    one. *)
Record World := {
  self : Topology;
  Path_heap : list Path
}.

Definition M (A : Type) : Type := World → outcome A * World.

#[global] Instance M_ret : MRet M := λ _ a w, (Returned a, w).
#[global] Instance M_bind : MBind M := λ _ _ f m w,
  match m w with
  | (Returned a, w') => f a w'
  | (Thrown, w') => (Thrown, w')
  | (Undefined, w') => (Undefined, w')
  end.

(** An outcome computed without touching the state. *)
Definition lift {A} (o : outcome A) : M A := λ w, (o, w).

Definition modify_self (f : Topology → Topology) : M unit :=
  λ w, (Returned tt, {| self := f (self w); Path_heap := Path_heap w |}).

(** [try { a = m; } catch (...) { return h; }] followed by [k a]: an
    exception thrown by [m] is caught and the function returns through [h],
    from the state [m] left; otherwise it goes on with [k]. *)
Definition try_catch {A B} (m : M A) (k : A → M B) (h : M B) : M B := λ w,
  match m w with
  | (Returned a, w') => k a w'
  | (Thrown, w') => h w'
  | (Undefined, w') => (Undefined, w')
  end.

(** [RWMutex]: [rlock], [lock], [unlock] and the scoped [RWMutex::Lock] and
    [RWMutex::RLock].  One call runs at a time, so taking and releasing a
    mutex leaves the state as it is. *)
Inductive RWMutex := _peers_l | _paths_l.
Definition rlock (m : RWMutex) : M unit := mret tt.
Definition lock (m : RWMutex) : M unit := mret tt.
Definition unlock (m : RWMutex) : M unit := mret tt.

(** Modelled from the spec: [Hashtable<K,V>] (Hashtable.hpp), the keyed
    storage of the peer registry and of the path cache, is a finite map.
    [operator[]] yields the slot under [k], default-constructed (a null
    [SharedPtr]) first when the table has none; [add] in Topology.hpp
    presupposes exactly this: it takes [_peers[a]] and tests the slot for
    null. *)
Definition Hashtable_index `{Countable K} {V} (k : K) (t : gmap K (SharedPtr V))
    : SharedPtr V * gmap K (SharedPtr V) :=
  match t !! k with
  | Some v => (v, t)
  | None => (None, <[k := None]> t)
  end.

(** Modelled from the spec: [Hashtable::get] (Hashtable.hpp), a read-only
    lookup that never creates: a pointer to the slot's value, or NULL. *)
Definition Hashtable_get `{Countable K} {V} (k : K) (t : gmap K (SharedPtr V))
    : option (SharedPtr V) := t !! k.

(** [_peers[a]], and an assignment through the reference it returned. *)
Definition peers_index (a : Address) : M (SharedPtr Peer) := λ w,
  let '(v, t) := Hashtable_index a (_peers (self w)) in
  (Returned v, {| self := set_peers (λ _, t) (self w); Path_heap := Path_heap w |}).
Definition peers_assign (a : Address) (v : SharedPtr Peer) : M unit :=
  modify_self (set_peers (insert a v)).

(** [_paths[k]], and an assignment through the reference it returned. *)
Definition paths_index (k : HashKey) : M (SharedPtr Path) := λ w,
  let '(v, t) := Hashtable_index k (_paths (self w)) in
  (Returned v, {| self := set_paths (λ _, t) (self w); Path_heap := Path_heap w |}).
Definition paths_assign (k : HashKey) (v : SharedPtr Path) : M unit :=
  modify_self (set_paths (insert k v)).

(** [new Path(l, r)]: a fresh object, or an exception when construction
    fails.  Whether it fails is not decided by the program; the call is told
    by [constructible]. *)
Definition new_Path (constructible : bool) (l : Z) (r : InetAddress) : M Path := λ w,
  if constructible then
    let p := {| Path_id := length (Path_heap w); Path_localSocket := l; Path_addr := r |} in
    (Returned p, {| self := self w; Path_heap := Path_heap w ++ [p] |})
  else (Thrown, w).

(** ** Peers *)

Definition add (peer : SharedPtr Peer) : M (SharedPtr Peer) :=
  _ ← lock _peers_l;
  o ← lift (deref peer);
  hp ← peers_index (Peer_address o);
  if negb (SharedPtr_bool hp) then
    _ ← peers_assign (Peer_address o) peer;
    _ ← unlock _peers_l;
    mret peer
  else
    _ ← unlock _peers_l;
    mret hp.

Definition get (T : Topology) (zta : Address) : SharedPtr Peer :=
  match Hashtable_get zta (_peers T) with
  | Some ap => ap
  | None => None
  end.

Definition getIdentity (T : Topology) (zta : Address) : outcome Identity :=
  if decide (zta = Identity_address (_myIdentity T)) then
    Returned (_myIdentity T)
  else
    match Hashtable_get zta (_peers T) with
    | Some ap => o ← deref ap; Returned (Peer_identity o)
    | None => Returned Identity_null
    end.

(** ** Paths *)

Definition getPath (constructible : bool) (l : Z) (r : InetAddress)
    : M (SharedPtr Path) :=
  let k := Path_HashKey l r in
  _ ← rlock _paths_l;
  p ← paths_index k;
  _ ← unlock _paths_l;
  if SharedPtr_bool p then mret p
  else
    _ ← lock _paths_l;
    p2 ← paths_index k;
    if SharedPtr_bool p2 then
      _ ← unlock _paths_l;
      mret p2
    else
      try_catch (new_Path constructible l r)
        (λ o,
           _ ← paths_assign k (Some o);
           _ ← unlock _paths_l;
           mret (Some o))
        (_ ← unlock _paths_l;
         mret None).

(** [_paths[k]] once more, for a table that may fail to make the slot it
    inserts on a miss.  Hashtable.hpp is a header of its own: whether its
    [operator[]] can fail there is a parameter, and the call is told by
    [allocatable].  A failure leaves by an exception and the table as it
    was; a hit allocates nothing. *)
Definition paths_index_alloc (allocatable : bool) (k : HashKey) : M (SharedPtr Path) := λ w,
  match _paths (self w) !! k with
  | Some _ => paths_index k w
  | None => if allocatable then paths_index k w else (Thrown, w)
  end.

(** [getPath] over such a table: the code of [getPath], with both [_paths[k]]
    outside the [try] block, as they are written. *)
Definition getPath_throwing (allocatable constructible : bool) (l : Z) (r : InetAddress)
    : M (SharedPtr Path) :=
  let k := Path_HashKey l r in
  _ ← rlock _paths_l;
  p ← paths_index_alloc allocatable k;
  _ ← unlock _paths_l;
  if SharedPtr_bool p then mret p
  else
    _ ← lock _paths_l;
    p2 ← paths_index_alloc allocatable k;
    if SharedPtr_bool p2 then
      _ ← unlock _paths_l;
      mret p2
    else
      try_catch (new_Path constructible l r)
        (λ o,
           _ ← paths_assign k (Some o);
           _ ← unlock _paths_l;
           mret (Some o))
        (_ ← unlock _paths_l;
         mret None).

(** ** Roots *)

(** [v.front()] on a [std::vector]; undefined on an empty one. *)
Definition vector_front {T} (v : list T) : outcome T :=
  match v with x :: _ => Returned x | [] => Undefined end.

(** [v.empty()]. *)
Definition vector_empty {T} (v : list T) : bool :=
  match v with [] => true | _ => false end.

Definition root (T : Topology) : outcome (SharedPtr Peer) :=
  if vector_empty (_rootPeers T) then Returned None
  else vector_front (_rootPeers T).

Definition isRoot (T : Topology) (id : Identity) : bool :=
  bool_decide (id ∈ _roots T).

Definition findRelayTo (T : Topology) (now : Z) (toAddr : Address)
    : outcome (SharedPtr Peer) :=
  if vector_empty (_rootPeers T) then Returned None
  else array_get (_rootPeers T) 0.

(** ** The physical-path configuration table *)

(** Class invariant of the table: the array has its declared capacity and
    the entry count does not exceed it. *)
Definition config_wf (T : Topology) : Prop :=
  length (_physicalPathConfig T) = ZT_MAX_CONFIGURABLE_PATHS ∧
  (_numConfiguredPhysicalPaths T ≤ ZT_MAX_CONFIGURABLE_PATHS)%nat.

(** Entry [i] is one of the configured entries. *)
Definition configured_at (T : Topology) (i : nat)
    (e : InetAddress * ZT_PhysicalPathConfiguration) : Prop :=
  (i < _numConfiguredPhysicalPaths T)%nat ∧ _physicalPathConfig T !! i = Some e.

(** Entry [i] is the first configured entry whose subnet contains [a]. *)
Definition first_containing (T : Topology) (a : InetAddress) (i : nat)
    (e : InetAddress * ZT_PhysicalPathConfiguration) : Prop :=
  configured_at T i e ∧ containsAddress e.1 a = true ∧
  ∀ i' e', (i' < i)%nat → _physicalPathConfig T !! i' = Some e' →
           containsAddress e'.1 a = false.

(** No configured entry's subnet contains [a]. *)
Definition none_containing (T : Topology) (a : InetAddress) : Prop :=
  ∀ i e, configured_at T i e → containsAddress e.1 a = false.

Definition getOutboundPathInfo (T : Topology) (physicalAddress : InetAddress)
    (mtu0 trustedPathId0 : Z) : outcome (Z * Z) :=
  r ← for_range (λ i,
         e ← array_get (_physicalPathConfig T) i;
         if containsAddress e.1 physicalAddress
         then Returned (Some (unsigned_int (mtu e.2), trustedPathId e.2))
         else Returned None)
       0 (_numConfiguredPhysicalPaths T);
  Returned (default (mtu0, trustedPathId0) r).

Definition getOutboundPathTrust (T : Topology) (physicalAddress : InetAddress)
    : outcome Z :=
  r ← for_range (λ i,
         e ← array_get (_physicalPathConfig T) i;
         if containsAddress e.1 physicalAddress
         then Returned (Some (trustedPathId e.2))
         else Returned None)
       0 (_numConfiguredPhysicalPaths T);
  Returned (default 0 r).

Definition shouldInboundPathBeTrusted (T : Topology)
    (physicalAddress : InetAddress) (trustedPathId' : Z) : outcome bool :=
  r ← for_range (λ i,
         e ← array_get (_physicalPathConfig T) i;
         if (trustedPathId e.2 =? trustedPathId') &&
            containsAddress e.1 physicalAddress
         then Returned (Some true)
         else Returned None)
       0 (_numConfiguredPhysicalPaths T);
  Returned (default false r).

(** ** The root set: [addRoot], [removeRoot], [rankRoots]

    Topology.hpp declares the three; their bodies are in Topology.cpp. *)

(** Modelled from the spec: how a root identity is resolved to its live
    peer (in Topology.cpp).  The peer of identity [id], when it is
    registered, is the registry's entry for the identity's address, provided
    it carries that identity. *)
Definition registered_peer (T : Topology) (id : Identity) : option Peer :=
  match get T (Identity_address id) with
  | Some p => if decide (Peer_identity p = id) then Some p else None
  | None => None
  end.

(** Latency order of two peers at time [now]. *)
Definition latency_le (now : Z) (p q : Peer) : Prop :=
  Peer_latency p now ≤ Peer_latency q now.

#[global] Instance latency_le_dec now : RelDecision (latency_le now).
Proof. intros p q. unfold latency_le. apply _. Defined.

(** The ranked-list entry [sp] is the peer of identity [id]. *)
Definition is_peer_of (id : Identity) (sp : SharedPtr Peer) : bool :=
  match sp with
  | Some p => bool_decide (Peer_identity p = id)
  | None => false
  end.

(** Modelled from the spec: the body of [Topology::addRoot] (Topology.cpp).
    It registers [id] as trusted, is idempotent, and does not itself insert
    into the ranked list. *)
Definition addRoot (id : Identity) (T : Topology) : Topology :=
  set_roots (λ r, {[id]} ∪ r) T.

(** Modelled from the spec: the body of [Topology::removeRoot]
    (Topology.cpp).  It removes [id] from the membership set and reports
    whether it was present; it also removes the corresponding entry of the
    ranked list; on an identity that is not a member it returns false and
    leaves the state unchanged. *)
Definition removeRoot (id : Identity) (T : Topology) : bool * Topology :=
  if decide (id ∈ _roots T) then
    (true,
     set_rootPeers (filter (λ sp, is_peer_of id sp = false))
       (set_roots (λ r, r ∖ {[id]}) T))
  else (false, T).

(** Modelled from the spec: the body of [Topology::rankRoots]
    (Topology.cpp).  It rebuilds the ranked list from the membership set:
    each root identity is resolved to its peer when that is registered, roots
    with no registered peer are left out (and stay members), and the peers
    are sorted by ascending latency as of [now]. *)
Definition rankRoots (now : Z) (T : Topology) : Topology :=
  set_rootPeers
    (λ _, Some <$> merge_sort (latency_le now)
                     (omap (registered_peer T) (elements (_roots T))))
    T.

(** The three calls, and a sequence of them run from a state. *)
Inductive root_call :=
  | AddRoot (id : Identity)
  | RemoveRoot (id : Identity)
  | RankRoots (now : Z).

Definition do_root_call (T : Topology) (c : root_call) : Topology :=
  match c with
  | AddRoot id => addRoot id T
  | RemoveRoot id => (removeRoot id T).2
  | RankRoots now => rankRoots now T
  end.

Definition do_root_calls (cs : list root_call) (T : Topology) : Topology :=
  foldl do_root_call T cs.


(** Every member has its peer in the ranked list, or has no registered
    peer. *)
Definition members_are_ranked (T : Topology) : Prop :=
  ∀ id, id ∈ _roots T →
    (∃ p, registered_peer T id = Some p ∧ Some p ∈ _rootPeers T) ∨
    registered_peer T id = None.


(** The identities that [addRoot] has newly made members since the last
    [rankRoots] and that were not removed since, kept along a run: [added] is
    the set before the call [c] made in state [T]. *)
Definition note_root_call (T : Topology) (added : gset Identity) (c : root_call)
    : gset Identity :=
  match c with
  | AddRoot id => if decide (id ∈ _roots T) then added else {[id]} ∪ added
  | RemoveRoot id => added ∖ {[id]}
  | RankRoots _ => ∅
  end.

Fixpoint added_since_rank_from (T : Topology) (added : gset Identity)
    (cs : list root_call) : gset Identity :=
  match cs with
  | [] => added
  | c :: cs' => added_since_rank_from (do_root_call T c) (note_root_call T added c) cs'
  end.

Definition added_since_rank (cs : list root_call) (T : Topology) : gset Identity :=
  added_since_rank_from T ∅ cs.


(** ** Sequences of calls on the registry and the cache *)

Inductive call :=
  | Call_add (peer : SharedPtr Peer)
  | Call_getPath (constructible : bool) (l : Z) (r : InetAddress).

Definition do_call (c : call) : M unit :=
  match c with
  | Call_add peer => _ ← add peer; mret tt
  | Call_getPath constructible l r => _ ← getPath constructible l r; mret tt
  end.

Fixpoint do_calls (cs : list call) : M unit :=
  match cs with
  | [] => mret tt
  | c :: cs' => _ ← do_call c; do_calls cs'
  end.

(** The path cached for a key: the slot's handle, null when there is no
    slot. *)
Definition cached_path (w : World) (l : Z) (r : InetAddress) : SharedPtr Path :=
  default None (_paths (self w) !! Path_HashKey l r).

(** The object [new Path(l, r)] constructs in the world [w]. *)
Definition next_Path (w : World) (l : Z) (r : InetAddress) : Path :=
  {| Path_id := length (Path_heap w); Path_localSocket := l; Path_addr := r |}.

(** The key a Path object was constructed under. *)
Definition Path_key (o : Path) : HashKey :=
  Path_HashKey (Path_localSocket o) (Path_addr o).

(** Every Path object constructed so far is the one cached under its
    key. *)
Definition heap_cached (w : World) : Prop :=
  ∀ o, o ∈ Path_heap w → _paths (self w) !! Path_key o = Some (Some o).

(** The peer registered for an address. *)
Definition registered (T : Topology) (a : Address) (p : Peer) : Prop :=
  _peers T !! a = Some (Some p).

(** The registry holds no null slot: [add] never leaves one behind. *)
Definition peers_wf (T : Topology) : Prop :=
  ∀ a, _peers T !! a ≠ Some None.

End Topology.

(** ** Iteration over the registry: [eachPeer], [eachPeerWithRoot] *)

(** [outcome] maps a function over a returned value. *)
#[global] Instance outcome_fmap : FMap outcome := λ _ _ g o,
  match o with
  | Returned a => Returned (g a)
  | Thrown => Thrown
  | Undefined => Undefined
  end.

(** Modelled from the spec: [Hashtable::Iterator] (Hashtable.hpp) hands out
    every entry of the table once, in the table's own order. *)
Definition Hashtable_entries `{Countable K} {V} (t : gmap K V) : list (K * V) :=
  map_to_list t.

(** [while (i.next(a,p)) { if (!body(p)) break; }] over the entries [es]
    still to come.  The visitor is a function object passed by value: what
    it accumulates is its state [s]. *)
Fixpoint while_next {E S} (body : E → S → outcome (bool * S)) (es : list E) (s : S)
  : outcome S :=
  match es with
  | [] => Returned s
  | e :: es' =>
      r ← body e s;
      if (r.1 : bool) then while_next body es' r.2 else Returned r.2
  end.

(** [std::lower_bound] on the index range [first, first + count) of a
    vector: the loop runs while [count > 0] and halves [count], so [fuel]
    iterations are enough once [count ≤ fuel]. *)
Fixpoint lower_bound (v : list Z) (value : Z) (fuel first count : nat) : outcome nat :=
  match fuel with
  | O => Returned first
  | S fuel' =>
      if (count =? 0)%nat then Returned first
      else
        let step := (count / 2)%nat in
        x ← array_get v (first + step);
        if x <? value
        then lower_bound v value fuel' (S (first + step)) (count - (step + 1))
        else lower_bound v value fuel' first step
  end.

(** [std::binary_search(v.begin(), v.end(), value)]. *)
Definition binary_search (v : list Z) (value : Z) : outcome bool :=
  first ← lower_bound v value (length v) 0 (length v);
  if (first =? length v)%nat then Returned false
  else x ← array_get v first; Returned (negb (value <? x)).

Section Iteration.
Context {env : Collaborators}.

(** The address of a Peer object, as [(uintptr_t)p.ptr()] reads it. *)
Variable Peer_ptr : Peer → Z.

(** [(uintptr_t)sp.ptr()]: a null handle holds the null pointer. *)
Definition SharedPtr_ptr (sp : SharedPtr Peer) : Z :=
  match sp with Some p => Peer_ptr p | None => 0 end.

(** The handles of the registry in the order the iterator hands them out. *)
Definition eachPeer_order (T : Topology) : list (SharedPtr Peer) :=
  (Hashtable_entries (_peers T)).*2.

Definition eachPeer {S} (f : SharedPtr Peer → S → bool * S) (T : Topology) (s : S)
    : outcome S :=
  while_next (λ e s, Returned (f e.2 s)) (Hashtable_entries (_peers T)) s.

Definition eachPeerWithRoot {S} (f : SharedPtr Peer → bool → S → bool * S)
    (T : Topology) (s : S) : outcome S :=
  let rootPeerPtrs := merge_sort Z.le (SharedPtr_ptr <$> _rootPeers T) in
  while_next
    (λ e s, b ← binary_search rootPeerPtrs (SharedPtr_ptr e.2); Returned (f e.2 b s))
    (Hashtable_entries (_peers T)) s.

(** Distinct Peer objects live at distinct addresses, none of them null. *)
Definition Peer_ptr_wf : Prop :=
  (∀ p q, Peer_ptr p = Peer_ptr q → p = q) ∧ ∀ p, Peer_ptr p ≠ 0.

End Iteration.

Section Invariants.
Context {env : Collaborators}.

(** Every registered peer is stored under its own address. *)
Definition peers_keyed (T : Topology) : Prop :=
  ∀ a p, registered T a p → Peer_address p = a.

(** Every cached path is stored under the key it was constructed for. *)
Definition paths_keyed (w : World) : Prop :=
  ∀ k p, _paths (self w) !! k = Some (Some p) → Path_key p = k.

(** The configured part of the table: its first
    [_numConfiguredPhysicalPaths] entries. *)
Definition configured_entries (T : Topology)
    : list (InetAddress * ZT_PhysicalPathConfiguration) :=
  take (_numConfiguredPhysicalPaths T) (_physicalPathConfig T).

(** [T'] is [T] but for its registry; [T'] is [T] but for its path cache. *)
Definition only_peers_differ (T T' : Topology) : Prop :=
  T' = set_peers (λ _, _peers T') T.
Definition only_paths_differ (T T' : Topology) : Prop :=
  T' = set_paths (λ _, _paths T') T.

(** A visitor that also logs each handle it is called on and its answer. *)
Definition logging {S} (f : SharedPtr Peer → S → bool * S)
    : SharedPtr Peer → S * list (SharedPtr Peer * bool) →
      bool * (S * list (SharedPtr Peer * bool)) :=
  λ sp st, let r := f sp st.1 in (r.1, (r.2, st.2 ++ [(sp, r.1)])).

End Invariants.

(** ** A concrete instance

    IPv4 endpoints as a 32-bit address with the port (for a subnet: the
    prefix length), identities as numbers, addresses as their low 40 bits. *)
Module Demo.

Record peer := {
  peer_object : nat;
  peer_identity : N;
  peer_latency : Z
}.

Definition contains (net a : N * N) : bool :=
  (N.shiftr net.1 (32 - net.2) =? N.shiftr a.1 (32 - net.2))%N.

#[global] Instance collaborators : Collaborators := {|
  Address := N;
  Identity := N;
  InetAddress := N * N;
  HashKey := Z * (N * N);
  Peer := peer;
  Identity_address := λ id, (id mod 2 ^ 40)%N;
  Identity_null := 0%N;
  Peer_address := λ p, (peer_identity p mod 2 ^ 40)%N;
  Peer_identity := peer_identity;
  Peer_latency := λ p _, peer_latency p;
  containsAddress := contains;
  Path_HashKey := λ l r, (l, r);
  ZT_MAX_CONFIGURABLE_PATHS := 4
|}.

Definition ip (a b c d : N) : N := (((a * 256 + b) * 256 + c) * 256 + d)%N.

(** 10.0.0.0/8 is trusted under id 42 with MTU 9000; 10.1.0.0/16 follows it
    with id 7; 192.168.0.0/16 has id 42 too. *)
Definition table : list ((N * N) * ZT_PhysicalPathConfiguration) :=
  [ ((ip 10 0 0 0, 8%N), {| trustedPathId := 42; mtu := 9000 |});
    ((ip 10 1 0 0, 16%N), {| trustedPathId := 7; mtu := 1400 |});
    ((ip 192 168 0 0, 16%N), {| trustedPathId := 42; mtu := 1500 |});
    ((0%N, 0%N), {| trustedPathId := 0; mtu := 0 |}) ].

(** [fresh] with an MTU of -1 configured for 10.0.0.0/8. *)
Definition negative_mtu : Topology := {|
  _myIdentity := 5%N;
  _physicalPathConfig :=
    ((ip 10 0 0 0, 8%N), {| trustedPathId := 42; mtu := -1 |}) :: drop 1 table;
  _numConfiguredPhysicalPaths := 3;
  _peers := ∅;
  _paths := ∅;
  _roots := ∅;
  _rootPeers := []
|}.

Definition alice : peer := {| peer_object := 1; peer_identity := 11; peer_latency := 30 |}.
Definition alice' : peer := {| peer_object := 2; peer_identity := 11; peer_latency := 30 |}.
Definition bob : peer := {| peer_object := 3; peer_identity := 12; peer_latency := 20 |}.

(** A node of identity 5 with three configured paths and nothing else. *)
Definition fresh : Topology := {|
  _myIdentity := 5%N;
  _physicalPathConfig := table;
  _numConfiguredPhysicalPaths := 3;
  _peers := ∅;
  _paths := ∅;
  _roots := ∅;
  _rootPeers := []
|}.

(** The same node once [alice] and [bob] are registered. *)
Definition with_peers : Topology :=
  set_peers (λ _, {[ 11%N := Some alice; 12%N := Some bob ]}) fresh.

Definition world0 : World := {| self := fresh; Path_heap := [] |}.

(** A remote endpoint, 1.2.3.4 port 9993, reached from local socket 3. *)
Definition endpoint : N * N := (ip 1 2 3 4, 9993%N).

(** The world after [getPath(3, endpoint)] has failed once on [world0]. *)
Definition after_failure : World := (getPath false 3 endpoint world0).2.

(** The Path [getPath(3, endpoint)] constructs on [world0], the world after
    that call, a few more calls, and the world after those. *)
Definition first_path : Path := next_Path world0 3 endpoint.
Definition cached_once : World := (getPath true 3 endpoint world0).2.
Definition more_calls : list call :=
  [ Call_getPath false 4 endpoint;
    Call_getPath true 3 (ip 5 6 7 8, 9993%N);
    Call_add (Some alice);
    Call_getPath true 4 endpoint;
    Call_getPath false 3 endpoint ].
Definition later : World := (do_calls more_calls cached_once).2.

(** The world in which [alice] and [bob] are registered. *)
Definition world_with_peers : World := {| self := with_peers; Path_heap := [] |}.

(** Root calls on [with_peers] that end with two identities added after the
    last ranking: 12 is ranked, 12 again changes nothing, 13 has no
    registered peer, 11 has one. *)
Definition pending_calls : list root_call :=
  [ AddRoot 12%N; RankRoots 0; AddRoot 13%N; AddRoot 12%N; AddRoot 11%N ].

(** Root calls on [with_peers]: identity 13 has no registered peer. *)
Definition root_calls : list root_call :=
  [ AddRoot 11%N; AddRoot 13%N; RankRoots 0; AddRoot 12%N; RankRoots 5;
    RemoveRoot 11%N; RemoveRoot 13%N ].

(** Calls on the registry: a second object of [alice]'s identity is
    offered, and [bob] again. *)
Definition peer_calls : list call :=
  [ Call_add (Some alice'); Call_getPath true 3 endpoint; Call_add (Some bob) ].
Definition after_peer_calls : World := (do_calls peer_calls world_with_peers).2.

(** Registrations from the empty registry. *)
Definition first_calls : list call :=
  [ Call_add (Some alice); Call_add (Some bob); Call_add (Some alice') ].
Definition after_first_calls : World := (do_calls first_calls world0).2.

(** [more_calls] after the first [getPath], all from [world0]. *)
Definition all_calls : list call := Call_getPath true 3 endpoint :: more_calls.
Definition latest : World := (do_calls all_calls world0).2.

(** The Path [more_calls] constructs for local socket 4. *)
Definition third_path : Path :=
  {| Path_id := 2; Path_localSocket := 4; Path_addr := endpoint |}.

(** [fresh] with another entry in the unused fourth place of the array. *)
Definition fresh_padded : Topology := {|
  _myIdentity := 5%N;
  _physicalPathConfig :=
    take 3 table ++ [((ip 172 16 0 0, 12%N), {| trustedPathId := 99; mtu := 576 |})];
  _numConfiguredPhysicalPaths := 3;
  _peers := ∅;
  _paths := ∅;
  _roots := ∅;
  _rootPeers := []
|}.

(** The address of a peer object: distinct for distinct objects, never
    null. *)
Definition ptr (p : peer) : Z :=
  Z.pos (encode (peer_object p, peer_identity p, peer_latency p)).

(** [with_peers] with [bob] as the one ranked root. *)
Definition with_root : Topology := set_rootPeers (λ _, [Some bob]) with_peers.

(** A visitor that counts its calls, and one that records what it is
    given. *)
Definition counting (sp : option peer) (n : nat) : bool * nat := (true, S n).
Definition recording (sp : option peer) (root : bool) (l : list (option peer * bool))
    : bool * list (option peer * bool) :=
  (true, l ++ [(sp, root)]).

End Demo.

(** * Properties *)

Section Facts.
Context {env : Collaborators}.

(** ** The scanning loop *)

(** A loop whose body is defined on the whole range and returns [g k] at
    index [k] either runs through, every [g k] being [None], or returns at
    the first index where [g] is [Some]. *)
Lemma for_range_first {R} (body : nat → outcome (option R)) (g : nat → option R) i n :
  (∀ k, (i ≤ k < i + n)%nat → body k = Returned (g k)) →
  (for_range body i n = Returned None ∧
   ∀ k, (i ≤ k < i + n)%nat → g k = None) ∨
  (∃ k r, (i ≤ k < i + n)%nat ∧ g k = Some r ∧
          (∀ k', (i ≤ k' < k)%nat → g k' = None) ∧
          for_range body i n = Returned (Some r)).
Proof.
  revert i. induction n as [|n IH]; intros i Hbody.
  - left. split; [done | intros k ?; lia].
  - cbn [for_range]. rewrite (Hbody i) by lia.
    destruct (g i) as [r|] eqn:Hgi.
    + right. exists i, r. repeat split; try lia; try done.
    + destruct (IH (S i)) as [[Hrun Hnone] | (k & r & Hk & Hgk & Hbefore & Hrun)].
      * intros k ?. apply Hbody. lia.
      * left. split; [done |]. intros k Hk.
        destruct (decide (k = i)) as [-> | ?]; [done | apply Hnone; lia].
      * right. exists k, r. repeat split; try lia; try done.
        intros k' Hk'. destruct (decide (k' = i)) as [-> | ?]; [done | apply Hbefore; lia].
Qed.

(** In a well-formed table every index below the entry count is in range. *)
Lemma config_in_range (T : Topology) k :
  config_wf T → (k < _numConfiguredPhysicalPaths T)%nat →
  ∃ e, _physicalPathConfig T !! k = Some e.
Proof.
  intros [Hlen Hnum] Hk. apply lookup_lt_is_Some. lia.
Qed.

(** The scan of the three lookups, for a test [c] on an entry and a result
    [v] taken from it: it returns [v e] for the first configured entry [e]
    that passes the test, or runs through when none passes. *)
Lemma config_scan {R} (T : Topology) (c : InetAddress * ZT_PhysicalPathConfiguration → bool)
    (v : InetAddress * ZT_PhysicalPathConfiguration → R) :
  config_wf T →
  let body := λ i, e ← array_get (_physicalPathConfig T) i;
                   if c e then Returned (Some (v e)) else Returned None in
  (for_range body 0 (_numConfiguredPhysicalPaths T) = Returned None ∧
   ∀ i e, configured_at T i e → c e = false) ∨
  (∃ i e, configured_at T i e ∧ c e = true ∧
          (∀ i' e', (i' < i)%nat → _physicalPathConfig T !! i' = Some e' → c e' = false) ∧
          for_range body 0 (_numConfiguredPhysicalPaths T) = Returned (Some (v e))).
Proof.
  intros Hwf body.
  pose (g := λ k, match _physicalPathConfig T !! k with
                  | Some e => if c e then Some (v e) else None
                  | None => None
                  end).
  destruct (for_range_first body g 0 (_numConfiguredPhysicalPaths T))
    as [[Hrun Hnone] | (k & r & Hk & Hgk & Hbefore & Hrun)].
  - intros k Hk. destruct (config_in_range T k Hwf) as [e He]; [lia |].
    unfold body, g, array_get. rewrite He. cbn. by destruct (c e).
  - left. split; [done |]. intros i e [Hi He].
    specialize (Hnone i ltac:(lia)). unfold g in Hnone. rewrite He in Hnone.
    by destruct (c e).
  - right. destruct (config_in_range T k Hwf) as [e He]; [lia |].
    unfold g in Hgk. rewrite He in Hgk.
    destruct (c e) eqn:Hce; [| done]. injection Hgk as <-.
    exists k, e. split; [split; [lia | done] |]. split; [done |]. split; [| done].
    intros i' e' Hi' He'. specialize (Hbefore i' ltac:(lia)).
    unfold g in Hbefore. rewrite He' in Hbefore. by destruct (c e').
Qed.

(** The first containing entry is unique. *)
Lemma first_containing_unique (T : Topology) a i e i' e' :
  first_containing T a i e → first_containing T a i' e' → i = i' ∧ e = e'.
Proof.
  intros ([Hi He] & Hc & Hfirst) ([Hi' He'] & Hc' & Hfirst').
  assert (i = i') as ->.
  { destruct (Nat.lt_trichotomy i i') as [Hlt | [Heq | Hgt]]; [| done |].
    - specialize (Hfirst' _ _ Hlt He). congruence.
    - specialize (Hfirst _ _ Hgt He'). congruence. }
  split; [done | congruence].
Qed.

(** ** The physical-path configuration table *)

(** C1.  On a well-formed table [shouldInboundPathBeTrusted a t] returns, and
    it returns true exactly when some configured entry has both a subnet
    containing [a] and the trusted-path id [t]; in particular it returns
    false when every configured entry whose subnet contains [a] carries
    another id (the id may well match an entry of another subnet). *)
Theorem shouldInboundPathBeTrusted_iff (T : Topology) (a : InetAddress) (t : Z) :
  config_wf T →
  ∃ b, shouldInboundPathBeTrusted T a t = Returned b ∧
       (b = true ↔ ∃ i e, configured_at T i e ∧
                          containsAddress e.1 a = true ∧ trustedPathId e.2 = t) ∧
       ((∀ i e, configured_at T i e → containsAddress e.1 a = true →
                trustedPathId e.2 ≠ t) → b = false).
Proof.
  intros Hwf. unfold shouldInboundPathBeTrusted.
  destruct (config_scan T
              (λ e, (trustedPathId e.2 =? t) && containsAddress e.1 a)
              (λ _, true) Hwf)
    as [[Hrun Hnone] | (i & e & Hcfg & Hc & _ & Hrun)]; cbn in Hrun; rewrite Hrun; cbn.
  - exists false. split; [done |]. split; [| done]. split; [done |].
    intros (i & e & Hcfg & Hin & Hid). specialize (Hnone i e Hcfg). cbn in Hnone.
    rewrite Hin in Hnone. apply Z.eqb_eq in Hid. by rewrite Hid in Hnone.
  - apply andb_true_iff in Hc as [Hid Hin]. apply Z.eqb_eq in Hid.
    exists true. split; [done |]. split.
    + split; [| done]. intros _. by exists i, e.
    + intros Hno. by destruct (Hno i e Hcfg Hin Hid).
Qed.

(** C8.  On a well-formed table [getOutboundPathTrust a] returns: the
    trusted-path id of the first configured entry whose subnet contains [a],
    and 0 when no configured entry's subnet contains [a]. *)
Theorem getOutboundPathTrust_first (T : Topology) (a : InetAddress) :
  config_wf T →
  (∃ id, getOutboundPathTrust T a = Returned id) ∧
  (∀ i e, first_containing T a i e →
          getOutboundPathTrust T a = Returned (trustedPathId e.2)) ∧
  (none_containing T a → getOutboundPathTrust T a = Returned 0).
Proof.
  intros Hwf. unfold getOutboundPathTrust.
  destruct (config_scan T (λ e, containsAddress e.1 a) (λ e, trustedPathId e.2) Hwf)
    as [[Hrun Hnone] | (i & e & Hcfg & Hc & Hbefore & Hrun)]; cbn in Hrun; rewrite Hrun; cbn;
    (split; [by eexists |]).
  - split; [| done]. intros i e (Hcfg & Hin & _).
    specialize (Hnone i e Hcfg). cbn in Hnone. congruence.
  - split.
    + intros i' e' Hfirst.
      pose proof (conj Hcfg (conj Hc Hbefore) : first_containing T a i e) as Hmine.
      by destruct (first_containing_unique T a i e i' e' Hmine Hfirst) as [_ <-].
    + intros Hno. specialize (Hno i e Hcfg). congruence.
Qed.

(** C9.  On a well-formed table [getOutboundPathInfo a] returns, and leaves
    both result variables at the values they had when no configured entry's
    subnet contains [a]; otherwise it sets both from the first configured
    entry whose subnet contains [a]: the trusted-path id as it is, the MTU as
    the entry's [int] converted to the variable's [unsigned int], which is
    the entry's MTU itself when that is not negative. *)
Theorem getOutboundPathInfo_frame (T : Topology) (a : InetAddress) (mtu0 trustedPathId0 : Z) :
  config_wf T →
  (∃ out, getOutboundPathInfo T a mtu0 trustedPathId0 = Returned out) ∧
  (none_containing T a →
   getOutboundPathInfo T a mtu0 trustedPathId0 = Returned (mtu0, trustedPathId0)) ∧
  (∀ i e, first_containing T a i e →
          getOutboundPathInfo T a mtu0 trustedPathId0
          = Returned (unsigned_int (mtu e.2), trustedPathId e.2) ∧
          (0 ≤ mtu e.2 < 2 ^ 32 →
           getOutboundPathInfo T a mtu0 trustedPathId0
           = Returned (mtu e.2, trustedPathId e.2))).
Proof.
  intros Hwf. unfold getOutboundPathInfo.
  destruct (config_scan T (λ e, containsAddress e.1 a)
              (λ e, (unsigned_int (mtu e.2), trustedPathId e.2)) Hwf)
    as [[Hrun Hnone] | (i & e & Hcfg & Hc & Hbefore & Hrun)]; cbn in Hrun; rewrite Hrun; cbn;
    (split; [by eexists |]).
  - split; [done |]. intros i e (Hcfg & Hin & _).
    specialize (Hnone i e Hcfg). cbn in Hnone. congruence.
  - split.
    + intros Hno. specialize (Hno i e Hcfg). congruence.
    + intros i' e' Hfirst.
      pose proof (conj Hcfg (conj Hc Hbefore) : first_containing T a i e) as Hmine.
      destruct (first_containing_unique T a i e i' e' Hmine Hfirst) as [_ <-].
      split; [done |]. intros Hrange. unfold unsigned_int.
      by rewrite Z.mod_small.
Qed.

(** ** Paths *)

Lemma World_eta (w : World) : {| self := self w; Path_heap := Path_heap w |} = w.
Proof. by destruct w. Qed.

Lemma set_paths_same (T : Topology) : set_paths (λ _, _paths T) T = T.
Proof. by destruct T. Qed.

Lemma set_peers_same (T : Topology) : set_peers (λ _, _peers T) T = T.
Proof. by destruct T. Qed.

Lemma set_paths_ext f g (T : Topology) :
  f (_paths T) = g (_paths T) → set_paths f T = set_paths g T.
Proof. unfold set_paths. by intros ->. Qed.

Lemma set_paths_set_paths f g (T : Topology) :
  set_paths f (set_paths g T) = set_paths (f ∘ g) T.
Proof. done. Qed.

(** What a [getPath] call does, by the path cached for the key and by
    whether a Path can be constructed. *)
Lemma getPath_cases (constructible : bool) (l : Z) (r : InetAddress) (w : World) :
  getPath constructible l r w =
  match cached_path w l r with
  | Some p => (Returned (Some p), w)
  | None =>
      if constructible then
        (Returned (Some (next_Path w l r)),
         {| self := set_paths (insert (Path_HashKey l r) (Some (next_Path w l r))) (self w);
            Path_heap := Path_heap w ++ [next_Path w l r] |})
      else
        (Returned None,
         {| self := set_paths (insert (Path_HashKey l r) None) (self w);
            Path_heap := Path_heap w |})
  end.
Proof.
  unfold cached_path, getPath, rlock, lock, unlock, paths_index, paths_assign,
    modify_self, try_catch, new_Path, Hashtable_index, next_Path, mbind, M_bind, mret, M_ret.
  destruct w as [T heap]. cbn.
  destruct (_paths T !! Path_HashKey l r) as [[p|]|] eqn:Hk; cbn.
  - by rewrite set_paths_same.
  - rewrite Hk. cbn. destruct constructible; cbn;
      rewrite !set_paths_set_paths; f_equal; f_equal; apply set_paths_ext; cbn.
    symmetry. by apply insert_id.
  - rewrite lookup_insert_eq. cbn. destruct constructible; cbn;
      rewrite !set_paths_set_paths; f_equal; f_equal; apply set_paths_ext; cbn;
      by rewrite insert_insert_eq.
Qed.

Lemma set_peers_ext f g (T : Topology) :
  f (_peers T) = g (_peers T) → set_peers f T = set_peers g T.
Proof. unfold set_peers. by intros ->. Qed.

Lemma set_peers_set_peers f g (T : Topology) :
  set_peers f (set_peers g T) = set_peers (f ∘ g) T.
Proof. done. Qed.

(** What an [add] call does on a peer object, by the peer the registry holds
    for its address. *)
Lemma add_cases (p : Peer) (w : World) :
  add (Some p) w =
  match get (self w) (Peer_address p) with
  | Some q => (Returned (Some q), w)
  | None =>
      (Returned (Some p),
       {| self := set_peers (insert (Peer_address p) (Some p)) (self w);
          Path_heap := Path_heap w |})
  end.
Proof.
  unfold add, get, Hashtable_get, lock, unlock, lift, deref, peers_index, peers_assign,
    modify_self, Hashtable_index, mbind, M_bind, mret, M_ret.
  destruct w as [T heap]. cbn.
  destruct (_peers T !! Peer_address p) as [[q|]|] eqn:Ha; cbn.
  - by rewrite set_peers_same.
  - done.
  - rewrite set_peers_set_peers. f_equal. f_equal. apply set_peers_ext. cbn.
    by rewrite insert_insert_eq.
Qed.

(** A null handle passed to [add] is dereferenced. *)
Lemma add_null (w : World) : (add None w).1 = Undefined.
Proof. done. Qed.

(** A handle [getPath] returned is the one cached afterwards. *)
Lemma getPath_Some_cached constructible l r (w w1 : World) p :
  getPath constructible l r w = (Returned (Some p), w1) →
  cached_path w1 l r = Some p.
Proof.
  rewrite getPath_cases. destruct (cached_path w l r) as [q|] eqn:Hc.
  - by intros [= <- <-].
  - destruct constructible; [| done]. intros [= <- <-].
    unfold cached_path. cbn. by rewrite lookup_insert_eq.
Qed.

(** One call keeps a cached path where it is, and constructs Path objects
    under other keys only. *)
Lemma do_call_keeps_cached (c : call) l r p (w w' : World) :
  cached_path w l r = Some p →
  do_call c w = (Returned tt, w') →
  cached_path w' l r = Some p ∧
  ∃ news, Path_heap w' = Path_heap w ++ news ∧
          Forall (λ o, Path_key o ≠ Path_HashKey l r) news.
Proof.
  intros Hc. destruct c as [[q|] | constructible l' r']; unfold do_call, mbind, M_bind.
  - rewrite add_cases. destruct (get (self w) (Peer_address q)); cbn; intros [= <-].
    + split; [done |]. exists []. by rewrite app_nil_r.
    + split; [done |]. exists []. by rewrite app_nil_r.
  - done.
  - rewrite getPath_cases. destruct (cached_path w l' r') as [q|] eqn:Hc'.
    + cbn. intros [= <-]. split; [done |]. exists []. by rewrite app_nil_r.
    + assert (Path_HashKey l' r' ≠ Path_HashKey l r) as Hne.
      { intros Heq. unfold cached_path in Hc, Hc'. rewrite Heq in Hc'. congruence. }
      destruct constructible; cbn; intros [= <-]; cbn.
      * split.
        -- unfold cached_path in *. cbn. by rewrite lookup_insert_ne.
        -- exists [next_Path w l' r']. split; [done |]. by constructor.
      * split.
        -- unfold cached_path in *. cbn. by rewrite lookup_insert_ne.
        -- exists []. by rewrite app_nil_r.
Qed.

Lemma do_calls_keep_cached (cs : list call) l r p (w w' : World) :
  cached_path w l r = Some p →
  do_calls cs w = (Returned tt, w') →
  cached_path w' l r = Some p ∧
  ∃ news, Path_heap w' = Path_heap w ++ news ∧
          Forall (λ o, Path_key o ≠ Path_HashKey l r) news.
Proof.
  revert w. induction cs as [|c cs IH]; intros w Hc.
  - intros [= <-]. split; [done |]. exists []. by rewrite app_nil_r.
  - cbn [do_calls]. unfold mbind at 1, M_bind at 1.
    destruct (do_call c w) as [[[] | |] w1] eqn:Hstep; [| done | done].
    intros Hrest.
    destruct (do_call_keeps_cached c l r p w w1 Hc Hstep) as [Hc1 (n1 & Hh1 & Hn1)].
    destruct (IH w1 Hc1 Hrest) as [Hc2 (n2 & Hh2 & Hn2)].
    split; [done |]. exists (n1 ++ n2). split.
    + by rewrite Hh2, Hh1, app_assoc.
    + by apply Forall_app.
Qed.

(** One call keeps every constructed Path cached under its key. *)
Lemma do_call_keeps_heap_cached (c : call) (w w' : World) :
  heap_cached w → do_call c w = (Returned tt, w') → heap_cached w'.
Proof.
  intros Hinv. destruct c as [[q|] | constructible l r]; unfold do_call, mbind, M_bind.
  - rewrite add_cases. by destruct (get (self w) (Peer_address q)); cbn; intros [= <-].
  - done.
  - rewrite getPath_cases. destruct (cached_path w l r) as [q|] eqn:Hc.
    { by cbn; intros [= <-]. }
    assert (∀ o, o ∈ Path_heap w → Path_HashKey l r ≠ Path_key o) as Hne.
    { intros o Ho Heq. unfold cached_path in Hc. rewrite Heq, (Hinv o Ho) in Hc. done. }
    destruct constructible; cbn; intros [= <-]; intros o Ho; cbn in *.
    + apply elem_of_app in Ho as [Ho | ->%list_elem_of_singleton].
      * rewrite lookup_insert_ne by by apply Hne. by apply Hinv.
      * by rewrite lookup_insert_eq.
    + rewrite lookup_insert_ne by by apply Hne. by apply Hinv.
Qed.

(** From a world with nothing constructed, however many calls later, two
    Path objects constructed under the same key are one object. *)
Lemma Path_heap_one_per_key (cs : list call) (w w' : World) :
  heap_cached w → do_calls cs w = (Returned tt, w') →
  ∀ o1 o2, o1 ∈ Path_heap w' → o2 ∈ Path_heap w' → Path_key o1 = Path_key o2 → o1 = o2.
Proof.
  revert w. induction cs as [|c cs IH]; intros w Hinv.
  - intros [= <-] o1 o2 H1 H2 Hk. apply Hinv in H1, H2. congruence.
  - cbn [do_calls]. unfold mbind at 1, M_bind at 1.
    destruct (do_call c w) as [[[] | |] w1] eqn:Hstep; [| done | done].
    apply IH. by eapply do_call_keeps_heap_cached.
Qed.

(** A call is determined by its outcome and the state it leaves. *)
Lemma run_eq {A} (m : M A) (w w' : World) (o : outcome A) :
  (m w).1 = o → (m w).2 = w' → m w = (o, w').
Proof. destruct (m w). cbn. by intros -> ->. Qed.

(** After a failed [getPath] the same call, failing again, changes
    nothing. *)
Lemma getPath_fails_again l r (w w' : World) constructible :
  getPath constructible l r w = (Returned None, w') →
  getPath false l r w' = (Returned None, w').
Proof.
  rewrite getPath_cases. destruct (cached_path w l r) as [p|] eqn:Hc; [done |].
  destruct constructible; [done |]. intros [= <-].
  rewrite getPath_cases. unfold cached_path. cbn. rewrite lookup_insert_eq. cbn.
  do 2 f_equal. rewrite set_paths_set_paths. apply set_paths_ext. cbn.
  by rewrite insert_insert_eq.
Qed.

(** C2.  Once a [getPath(l, r)] call has returned a non-null handle [p], then
    after any further calls of [getPath] (any keys, constructions failing or
    not) and [add], [getPath(l, r)] returns the same object [p] and leaves
    the state as it is (it constructs nothing), and every Path object those
    calls constructed has another key: the key has one Path object. *)
Theorem getPath_canonical (w w1 w2 : World) (constructible constructible' : bool)
    (l : Z) (r : InetAddress) (p : Path) (cs : list call) :
  getPath constructible l r w = (Returned (Some p), w1) →
  do_calls cs w1 = (Returned tt, w2) →
  getPath constructible' l r w2 = (Returned (Some p), w2) ∧
  ∃ news, Path_heap w2 = Path_heap w1 ++ news ∧
          Forall (λ o, Path_key o ≠ Path_HashKey l r) news.
Proof.
  intros Hfirst Hrun. apply getPath_Some_cached in Hfirst.
  destruct (do_calls_keep_cached cs l r p w1 w2 Hfirst Hrun) as [Hc Hnews].
  split; [| done]. by rewrite getPath_cases, Hc.
Qed.

(** Over a table whose lookups return, [getPath(l, r)] returns, and the
    handle it returns is null exactly when no path is cached for the key and
    the construction of a new Path fails. *)
Theorem getPath_null_iff (w : World) (constructible : bool) (l : Z) (r : InetAddress) :
  ∃ h w', getPath constructible l r w = (Returned h, w') ∧
          (h = None ↔ cached_path w l r = None ∧ constructible = false).
Proof.
  rewrite getPath_cases. destruct (cached_path w l r) as [p|] eqn:Hc.
  - eexists _, _. split; [done |]. split; [done | by intros [? _]].
  - destruct constructible.
    + eexists _, _. split; [done |]. split; [done | by intros [_ ?]].
    + eexists _, _. split; [done |]. done.
Qed.

(** Over a table that can make the slot, or that has it already, the
    lookups return and [getPath] does what it does over the table whose
    lookups always return. *)
Lemma getPath_throwing_returns (allocatable constructible : bool) l r (w : World) :
  allocatable = true ∨ is_Some (_paths (self w) !! Path_HashKey l r) →
  getPath_throwing allocatable constructible l r w = getPath constructible l r w.
Proof.
  intros Hok.
  unfold getPath_throwing, getPath, paths_index_alloc, rlock, lock, unlock, paths_index,
    paths_assign, modify_self, try_catch, new_Path, Hashtable_index, mbind, M_bind,
    mret, M_ret.
  destruct w as [T heap]. cbn in *.
  destruct (_paths T !! Path_HashKey l r) as [[p|]|] eqn:Hk; cbn.
  - done.
  - by rewrite !Hk.
  - destruct Hok as [-> | [? [=]]]. cbn. by rewrite !lookup_insert_eq.
Qed.

(** C4.  What [getPath(l, r)] does over a table whose [operator[]] can fail
    to make a slot.  When the key has no slot and the slot cannot be made,
    the first [_paths[k]] throws outside the [try] block: the exception
    leaves [getPath], no null handle is returned, and the state is as before
    the call.  That is the only exception that leaves it: in every other
    case the call is the one over a table whose lookups return, where a
    failing construction of the Path is caught and reported as the null
    handle. *)
Theorem getPath_lookup_exception_propagates (w : World) (allocatable constructible : bool)
    (l : Z) (r : InetAddress) :
  (allocatable = false ∧ _paths (self w) !! Path_HashKey l r = None →
   getPath_throwing allocatable constructible l r w = (Thrown, w)) ∧
  ((getPath_throwing allocatable constructible l r w).1 = Thrown →
   allocatable = false ∧ _paths (self w) !! Path_HashKey l r = None) ∧
  (allocatable = true ∨ is_Some (_paths (self w) !! Path_HashKey l r) →
   getPath_throwing allocatable constructible l r w = getPath constructible l r w ∧
   ∃ h w', getPath_throwing allocatable constructible l r w = (Returned h, w') ∧
           (h = None ↔ cached_path w l r = None ∧ constructible = false)).
Proof.
  split; [| split].
  - intros [-> Hk].
    unfold getPath_throwing, mbind, M_bind, rlock, mret, M_ret, paths_index_alloc.
    by rewrite Hk.
  - intros Hthrown.
    destruct (getPath_null_iff w constructible l r) as (h & w' & Hret & _).
    destruct allocatable.
    + rewrite getPath_throwing_returns, Hret in Hthrown by by left. done.
    + split; [done |].
      destruct (_paths (self w) !! Path_HashKey l r) as [sp|] eqn:Hk; [| done].
      rewrite getPath_throwing_returns, Hret in Hthrown; [done |].
      right. by rewrite Hk.
  - intros Hok. rewrite getPath_throwing_returns by done. split; [done |].
    apply getPath_null_iff.
Qed.

(** C10, as amended.  A [getPath(l, r)] call that returns the null handle
    leaves the cache with a slot for the key holding a null handle.  The
    cache differs from the one before the call exactly when the key had no
    slot before (the lookup made it).  A further [getPath(l, r)] attempts the
    construction again: it fails again when construction fails, and returns
    the newly constructed Path, now cached, when construction succeeds. *)
Theorem getPath_failure_slot (w w' : World) (constructible : bool) (l : Z) (r : InetAddress) :
  getPath constructible l r w = (Returned None, w') →
  _paths (self w') = <[Path_HashKey l r := None]> (_paths (self w)) ∧
  _paths (self w') !! Path_HashKey l r = Some None ∧
  (_paths (self w') ≠ _paths (self w) ↔ _paths (self w) !! Path_HashKey l r = None) ∧
  getPath false l r w' = (Returned None, w') ∧
  ∃ w'', getPath true l r w' = (Returned (Some (next_Path w' l r)), w'') ∧
         Path_heap w'' = Path_heap w' ++ [next_Path w' l r] ∧
         cached_path w'' l r = Some (next_Path w' l r).
Proof.
  rewrite getPath_cases. destruct (cached_path w l r) as [p|] eqn:Hc; [done |].
  destruct constructible; [done |]. intros [= <-].
  assert (cached_path
            {| self := set_paths (insert (Path_HashKey l r) None) (self w);
               Path_heap := Path_heap w |} l r = None) as Hc'.
  { unfold cached_path. cbn. by rewrite lookup_insert_eq. }
  cbn [self _paths set_paths]. split; [done |]. split; [by rewrite lookup_insert_eq |].
  split; [| split].
  - unfold cached_path in Hc. split.
    + intros Hne. destruct (_paths (self w) !! Path_HashKey l r) as [sp|] eqn:Hk; [| done].
      cbn in Hc. subst sp. destruct Hne. by apply insert_id.
    + intros Hk Heq. rewrite <- Heq in Hk. by rewrite lookup_insert_eq in Hk.
  - rewrite getPath_cases, Hc'. do 2 f_equal. cbn. rewrite set_paths_set_paths.
    apply set_paths_ext. cbn. by rewrite insert_insert_eq.
  - rewrite getPath_cases, Hc'. eexists. split; [done |]. split; [done |].
    unfold cached_path. cbn. by rewrite lookup_insert_eq.
Qed.

(** ** Peers *)

(** [get] returns the registered peer, and null when there is none. *)
Lemma get_registered (T : Topology) a p : registered T a p ↔ get T a = Some p.
Proof.
  unfold registered, get, Hashtable_get.
  destruct (_peers T !! a) as [[q|]|]; naive_solver.
Qed.

(** [add] never leaves a null slot in the registry. *)
Lemma add_keeps_peers_wf (sp c : SharedPtr Peer) (w w' : World) :
  peers_wf (self w) → add sp w = (Returned c, w') → peers_wf (self w').
Proof.
  intros Hwf. destruct sp as [p|]; [| done]. rewrite add_cases.
  destruct (get (self w) (Peer_address p)); intros [= <- <-]; [done |].
  intros a. cbn. destruct (decide (a = Peer_address p)) as [-> | Hne].
  - by rewrite lookup_insert_eq.
  - rewrite lookup_insert_ne by done. apply Hwf.
Qed.

(** [getPath] leaves the registry alone. *)
Lemma getPath_peers constructible l r (w : World) :
  _peers (self (getPath constructible l r w).2) = _peers (self w).
Proof.
  rewrite getPath_cases. destruct (cached_path w l r); [done |].
  by destruct constructible.
Qed.

(** No sequence of calls leaves a null slot in the registry. *)
Lemma do_calls_keep_peers_wf (cs : list call) (w w' : World) :
  peers_wf (self w) → do_calls cs w = (Returned tt, w') → peers_wf (self w').
Proof.
  revert w. induction cs as [|c cs IH]; intros w Hwf.
  - by intros [= <-].
  - cbn [do_calls]. unfold mbind at 1, M_bind at 1.
    destruct (do_call c w) as [[[] | |] w1] eqn:Hstep; [| done | done].
    apply IH. destruct c as [sp | constructible l r]; unfold do_call, mbind, M_bind in Hstep.
    + destruct (add sp w) as [[c | |] w2] eqn:Hadd; [| done | done].
      injection Hstep as <-. by eapply add_keeps_peers_wf.
    + pose proof (getPath_peers constructible l r w) as Hsame.
      destruct (getPath constructible l r w) as [[c | |] w2]; [| done | done].
      injection Hstep as <-. intros a. cbn in Hsame. rewrite Hsame. apply Hwf.
Qed.

(** C3.  [add(p)] on a peer object returns a peer object [c], and a [get] of
    the address right after returns the same [c].  When no peer is
    registered for the address, [c] is [p] and the registry is the old one
    with [p] under its address; when a peer [q] is registered for it, [c] is
    [q] and the state is unchanged: [p] is not registered. *)
Theorem add_canonical (p : Peer) (w : World) :
  ∃ c w', add (Some p) w = (Returned (Some c), w') ∧
          get (self w') (Peer_address p) = Some c ∧
          ((∀ q, ¬ registered (self w) (Peer_address p) q) →
           c = p ∧
           _peers (self w') = <[Peer_address p := Some p]> (_peers (self w))) ∧
          (∀ q, registered (self w) (Peer_address p) q → c = q ∧ w' = w).
Proof.
  rewrite add_cases. destruct (get (self w) (Peer_address p)) as [q|] eqn:Hget.
  - exists q, w. split; [done |]. split; [done |]. split.
    + intros Hnone. apply get_registered in Hget. by destruct (Hnone q).
    + intros q' Hq'. apply get_registered in Hq'. split; [congruence | done].
  - eexists p, _. split; [done |]. split; [| split].
    + apply get_registered. unfold registered. cbn. by rewrite lookup_insert_eq.
    + done.
    + intros q Hq. apply get_registered in Hq. congruence.
Qed.

(** C6.  [getIdentity(a)] returns the node's own identity when [a] is its
    address, whatever the registry holds.  For another address it returns
    the identity of the peer registered for [a]; when none is registered (in
    a registry without null slots) it returns the null [Identity()]. *)
Theorem getIdentity_cases (T : Topology) (a : Address) :
  (a = Identity_address (_myIdentity T) → getIdentity T a = Returned (_myIdentity T)) ∧
  (a ≠ Identity_address (_myIdentity T) →
   (∀ p, registered T a p → getIdentity T a = Returned (Peer_identity p)) ∧
   (peers_wf T → (∀ p, ¬ registered T a p) → getIdentity T a = Returned Identity_null)).
Proof.
  unfold getIdentity, Hashtable_get. split.
  - intros Ha. by rewrite decide_True.
  - intros Ha. rewrite decide_False by done. split.
    + intros p Hp. unfold registered in Hp. by rewrite Hp.
    + intros Hwf Hnone. destruct (_peers T !! a) as [[q|]|] eqn:Hk.
      * by destruct (Hnone q).
      * by destruct (Hwf a).
      * done.
Qed.

(** ** Roots *)

(** C7.  [findRelayTo(now, toAddr)] returns what [root()] returns, whatever
    [now] and [toAddr] are: the first entry of the ranked list, or the null
    handle when the list is empty. *)
Theorem findRelayTo_is_root (T : Topology) (now : Z) (toAddr : Address) :
  findRelayTo T now toAddr = root T ∧
  root T = Returned (match _rootPeers T with [] => None | sp :: _ => sp end).
Proof.
  unfold findRelayTo, root. by destruct (_rootPeers T).
Qed.

Lemma registered_peer_identity (T : Topology) id p :
  registered_peer T id = Some p → Peer_identity p = id.
Proof.
  unfold registered_peer. destruct (get T (Identity_address id)) as [q|]; [| done].
  case_decide; [| done]. by intros [= <-].
Qed.






Lemma removeRoot_keeps_members_are_ranked id (T : Topology) :
  members_are_ranked T → members_are_ranked (removeRoot id T).2.
Proof.
  intros Hinv. unfold removeRoot. case_decide; [| done].
  intros id' Hmem. cbn in Hmem.
  apply elem_of_difference in Hmem as [Hid' Hne%not_elem_of_singleton].
  change (registered_peer _ id') with (registered_peer T id').
  destruct (Hinv id' Hid') as [(p & Hreg & Hp) | Hnone]; [left | by right].
  exists p. split; [done |]. cbn. apply list_elem_of_filter. split; [| done].
  cbn. apply bool_decide_eq_false. apply registered_peer_identity in Hreg. congruence.
Qed.

Lemma do_root_calls_snoc cs c (T : Topology) :
  do_root_calls (cs ++ [c]) T = do_root_call (do_root_calls cs T) c.
Proof. unfold do_root_calls. by rewrite foldl_app. Qed.




End Facts.

(** * Further properties of the code *)

Section MoreFacts.
Context {env : Collaborators}.

(** ** The registry across calls *)

Lemma get_lookup (T : Topology) a :
  get T a = default None (_peers T !! a).
Proof. unfold get, Hashtable_get. by destruct (_peers T !! a). Qed.

(** One call leaves a registered peer registered. *)
Lemma do_call_keeps_get (c : call) a q (w w' : World) :
  get (self w) a = Some q → do_call c w = (Returned tt, w') → get (self w') a = Some q.
Proof.
  intros Hget. destruct c as [[p|] | constructible l r]; unfold do_call, mbind, M_bind.
  - rewrite add_cases. destruct (get (self w) (Peer_address p)) eqn:Hp; cbn; intros [= <-].
    + done.
    + rewrite get_lookup in *. cbn. rewrite lookup_insert_ne; [done |]. congruence.
  - done.
  - pose proof (getPath_peers constructible l r w) as Hsame.
    destruct (getPath constructible l r w) as [[h | |] w1]; [| done | done].
    cbn. intros [= <-]. rewrite get_lookup in *. cbn in Hsame. by rewrite Hsame.
Qed.

(** X1.  Once an address has a registered peer [q], it has the same peer
    after any further [add] and [getPath] calls, and an [add] of any peer
    object of that address returns [q] and changes nothing. *)
Theorem peer_registration_permanent (cs : list call) (a : Address) (q : Peer)
    (w w' : World) :
  get (self w) a = Some q →
  do_calls cs w = (Returned tt, w') →
  get (self w') a = Some q ∧
  ∀ p, Peer_address p = a → add (Some p) w' = (Returned (Some q), w').
Proof.
  revert w. induction cs as [|c cs IH]; intros w Hget.
  - intros [= <-]. split; [done |]. intros p <-. by rewrite add_cases, Hget.
  - cbn [do_calls]. unfold mbind at 1, M_bind at 1.
    destruct (do_call c w) as [[[] | |] w1] eqn:Hstep; [| done | done].
    apply IH. by eapply do_call_keeps_get.
Qed.

(** X2.  [add(p)] touches nothing but the registry slot of [p]'s address:
    every other address resolves as before, and the path cache, the root
    set, the ranked list, the configuration table and the free store are as
    they were. *)
Theorem add_frame (p : Peer) (w : World) :
  only_peers_differ (self w) (self (add (Some p) w).2) ∧
  Path_heap (add (Some p) w).2 = Path_heap w ∧
  ∀ b, b ≠ Peer_address p → get (self (add (Some p) w).2) b = get (self w) b.
Proof.
  rewrite add_cases. unfold only_peers_differ.
  destruct (get (self w) (Peer_address p)); cbn.
  - split; [by rewrite set_peers_same |]. done.
  - split; [done |]. split; [done |]. intros b Hb.
    rewrite !get_lookup. cbn. by rewrite lookup_insert_ne.
Qed.

Lemma do_call_keeps_peers_keyed (c : call) (w w' : World) :
  peers_keyed (self w) → do_call c w = (Returned tt, w') → peers_keyed (self w').
Proof.
  intros Hinv. destruct c as [[p|] | constructible l r]; unfold do_call, mbind, M_bind.
  - rewrite add_cases. destruct (get (self w) (Peer_address p)) eqn:Hp; cbn; intros [= <-].
    + done.
    + intros a q. unfold registered. cbn.
      destruct (decide (a = Peer_address p)) as [-> | Hne].
      * rewrite lookup_insert_eq. by intros [= <-].
      * rewrite lookup_insert_ne by done. apply Hinv.
  - done.
  - pose proof (getPath_peers constructible l r w) as Hsame.
    destruct (getPath constructible l r w) as [[h | |] w1]; [| done | done].
    cbn. intros [= <-] a q. unfold registered. cbn in Hsame. rewrite Hsame. apply Hinv.
Qed.

(** X3.  A registry in which every peer sits under its own address stays so
    under any [add] and [getPath] calls: what [get(a)] returns is a peer
    whose address is [a]. *)
Theorem registry_keyed_by_address (cs : list call) (w w' : World) :
  peers_keyed (self w) →
  do_calls cs w = (Returned tt, w') →
  ∀ a p, get (self w') a = Some p → Peer_address p = a.
Proof.
  revert w. induction cs as [|c cs IH]; intros w Hinv.
  - intros [= <-] a p Hget. apply Hinv. by apply get_registered.
  - cbn [do_calls]. unfold mbind at 1, M_bind at 1.
    destruct (do_call c w) as [[[] | |] w1] eqn:Hstep; [| done | done].
    apply IH. by eapply do_call_keeps_peers_keyed.
Qed.

(** X4.  From a registry without null slots, after any [add] and [getPath]
    calls [getIdentity] returns for every address: it never dereferences a
    null handle. *)
Theorem getIdentity_defined (cs : list call) (w w' : World) (a : Address) :
  peers_wf (self w) →
  do_calls cs w = (Returned tt, w') →
  ∃ id, getIdentity (self w') a = Returned id.
Proof.
  intros Hwf Hrun. pose proof (do_calls_keep_peers_wf cs w w' Hwf Hrun) as Hwf'.
  unfold getIdentity, Hashtable_get. case_decide; [by eexists |].
  destruct (_peers (self w') !! a) as [[q|]|] eqn:Hk.
  - by eexists.
  - by destruct (Hwf' a).
  - by eexists.
Qed.

(** ** The path cache across calls *)

(** X5.  [getPath(l, r)] touches nothing but the path cache and the free
    store: the registry, the root set, the ranked list and the configuration
    table are as they were, and so is what is cached under every other
    key. *)
Theorem getPath_frame (constructible : bool) (l : Z) (r : InetAddress) (w : World) :
  only_paths_differ (self w) (self (getPath constructible l r w).2) ∧
  ∀ l' r', Path_HashKey l' r' ≠ Path_HashKey l r →
           cached_path (getPath constructible l r w).2 l' r' = cached_path w l' r'.
Proof.
  rewrite getPath_cases. unfold only_paths_differ, cached_path.
  destruct (default None (_paths (self w) !! Path_HashKey l r)); cbn.
  - split; [by rewrite set_paths_same | done].
  - destruct constructible; cbn; (split; [done |]); intros l' r' Hne;
      by rewrite lookup_insert_ne.
Qed.

(** X6.  The handle [getPath(l, r)] returns is the handle the cache holds
    for the key when the call is over, null or not.  The call constructs at
    most one Path, and only when nothing was cached for the key: the object
    returned is then the new one, made from [l] and [r]. *)
Theorem getPath_returns_cached (constructible : bool) (l : Z) (r : InetAddress)
    (w : World) :
  (getPath constructible l r w).1
  = Returned (cached_path (getPath constructible l r w).2 l r) ∧
  (Path_heap (getPath constructible l r w).2 = Path_heap w ∨
   cached_path w l r = None ∧
   Path_heap (getPath constructible l r w).2 = Path_heap w ++ [next_Path w l r] ∧
   (getPath constructible l r w).1 = Returned (Some (next_Path w l r))).
Proof.
  rewrite getPath_cases. destruct (cached_path w l r) as [p|] eqn:Hc; cbn.
  - split; [by rewrite Hc | by left].
  - destruct constructible; cbn; unfold cached_path; cbn; rewrite lookup_insert_eq.
    + split; [done |]. by right.
    + split; [done |]. by left.
Qed.


Lemma getPath_keeps_paths_keyed constructible l r (w : World) :
  paths_keyed w → paths_keyed (getPath constructible l r w).2.
Proof.
  intros Hinv. rewrite getPath_cases. destruct (cached_path w l r); [done |].
  destruct constructible; cbn; intros k p; cbn;
    (destruct (decide (Path_HashKey l r = k)) as [<- | Hne];
     [rewrite lookup_insert_eq | rewrite lookup_insert_ne by done; apply Hinv]).
  - by intros [= <-].
  - done.
Qed.

Lemma getPath_result_key constructible l r (w : World) p :
  paths_keyed w → (getPath constructible l r w).1 = Returned (Some p) →
  Path_key p = Path_HashKey l r.
Proof.
  intros Hinv. rewrite getPath_cases. unfold cached_path.
  destruct (_paths (self w) !! Path_HashKey l r) as [[q|]|] eqn:Hk; cbn.
  - intros [= <-]. by apply Hinv.
  - destruct constructible; [| done]. by intros [= <-].
  - destruct constructible; [| done]. by intros [= <-].
Qed.

Lemma do_calls_keep_paths_keyed (cs : list call) (w w' : World) :
  paths_keyed w → do_calls cs w = (Returned tt, w') → paths_keyed w'.
Proof.
  revert w. induction cs as [|c cs IH]; intros w Hinv.
  - by intros [= <-].
  - cbn [do_calls]. unfold mbind at 1, M_bind at 1.
    destruct (do_call c w) as [[[] | |] w1] eqn:Hstep; [| done | done].
    apply IH. destruct c as [[p|] | constructible l r]; unfold do_call, mbind, M_bind in Hstep.
    + rewrite add_cases in Hstep.
      by destruct (get (self w) (Peer_address p)); cbn in Hstep; injection Hstep as <-.
    + done.
    + pose proof (getPath_keeps_paths_keyed constructible l r w Hinv) as Hkeep.
      destruct (getPath constructible l r w) as [[h | |] w2]; [| done | done].
      by injection Hstep as <-.
Qed.

(** X8.  In a cache whose paths sit under the keys they were made for, and
    after any [add] and [getPath] calls on it, the Path [getPath(l, r)]
    returns is one made for the key of [(l, r)]. *)
Theorem getPath_returns_path_of_key (cs : list call) (w w' : World)
    (constructible : bool) (l : Z) (r : InetAddress) (p : Path) :
  paths_keyed w →
  do_calls cs w = (Returned tt, w') →
  (getPath constructible l r w').1 = Returned (Some p) →
  Path_key p = Path_HashKey l r.
Proof.
  intros Hinv Hrun. apply getPath_result_key. by eapply do_calls_keep_paths_keyed.
Qed.

(** X9.  Two [getPath] calls for different keys, with any calls in between,
    never return the same Path object. *)
Theorem distinct_keys_distinct_paths (cs : list call) (w w1 w2 : World)
    (c1 c2 : bool) (l1 l2 : Z) (r1 r2 : InetAddress) (p1 p2 : Path) :
  paths_keyed w →
  getPath c1 l1 r1 w = (Returned (Some p1), w1) →
  do_calls cs w1 = (Returned tt, w2) →
  (getPath c2 l2 r2 w2).1 = Returned (Some p2) →
  Path_HashKey l1 r1 ≠ Path_HashKey l2 r2 →
  p1 ≠ p2.
Proof.
  intros Hinv Hfirst Hrun Hsecond Hne Heq. apply Hne.
  assert (Path_key p1 = Path_HashKey l1 r1) as <-.
  { apply (getPath_result_key c1 l1 r1 w); [done | by rewrite Hfirst]. }
  assert (paths_keyed w1) as Hinv1.
  { pose proof (getPath_keeps_paths_keyed c1 l1 r1 w Hinv) as Hk. by rewrite Hfirst in Hk. }
  rewrite Heq. apply (getPath_result_key c2 l2 r2 w2); [| done].
  by eapply do_calls_keep_paths_keyed.
Qed.

(** ** The configuration table, once more *)

(** A loop reads its body on its range only. *)
Lemma for_range_ext {R} (body body' : nat → outcome (option R)) i n :
  (∀ k, (i ≤ k < i + n)%nat → body k = body' k) →
  for_range body i n = for_range body' i n.
Proof.
  revert i. induction n as [|n IH]; intros i Hsame; [done |].
  cbn. rewrite <- (Hsame i) by lia. destruct (body i) as [[r|] | |]; try done.
  apply IH. intros k ?. apply Hsame. lia.
Qed.

(** Mapping the value a loop body returns maps the value the loop
    returns. *)
Lemma for_range_fmap {R R'} (g : R → R') (body : nat → outcome (option R))
    (body' : nat → outcome (option R')) i n :
  (∀ k, body' k = fmap (M:=outcome) (fmap (M:=option) g) (body k)) →
  for_range body' i n = fmap (M:=outcome) (fmap (M:=option) g) (for_range body i n).
Proof.
  intros Hmap. revert i. induction n as [|n IH]; intros i; [done |].
  cbn. rewrite Hmap. destruct (body i) as [[r|] | |]; try done. apply IH.
Qed.

(** X10.  The three lookups read the configured entries only: two tables
    with the same entry count and the same entries below it answer alike,
    whatever lies beyond. *)
Theorem lookups_read_configured_entries (T T' : Topology) (a : InetAddress)
    (t mtu0 trustedPathId0 : Z) :
  _numConfiguredPhysicalPaths T = _numConfiguredPhysicalPaths T' →
  configured_entries T = configured_entries T' →
  shouldInboundPathBeTrusted T a t = shouldInboundPathBeTrusted T' a t ∧
  getOutboundPathTrust T a = getOutboundPathTrust T' a ∧
  getOutboundPathInfo T a mtu0 trustedPathId0
  = getOutboundPathInfo T' a mtu0 trustedPathId0.
Proof.
  intros Hnum Hentries.
  assert (∀ k, (k < _numConfiguredPhysicalPaths T)%nat →
               array_get (_physicalPathConfig T) k = array_get (_physicalPathConfig T') k)
    as Hget.
  { intros k Hk. unfold array_get.
    assert (_physicalPathConfig T !! k = _physicalPathConfig T' !! k) as ->; [| done].
    transitivity (configured_entries T !! k).
    - symmetry. by apply lookup_take_lt.
    - rewrite Hentries. unfold configured_entries. rewrite <- Hnum. by apply lookup_take_lt. }
  unfold shouldInboundPathBeTrusted, getOutboundPathTrust, getOutboundPathInfo.
  rewrite <- Hnum.
  repeat split; (f_equal; apply for_range_ext; intros k Hk; rewrite Hget by lia; done).
Qed.

(** X11.  [getOutboundPathTrust] is the trusted-path id [getOutboundPathInfo]
    reports when the caller's variable starts at 0: the two scans agree,
    also in having no defined result. *)
Theorem getOutboundPathTrust_is_info (T : Topology) (a : InetAddress) (mtu0 : Z) :
  getOutboundPathTrust T a = snd <$> getOutboundPathInfo T a mtu0 0.
Proof.
  unfold getOutboundPathTrust, getOutboundPathInfo.
  rewrite (for_range_fmap snd
             (λ i, e ← array_get (_physicalPathConfig T) i;
                   if containsAddress e.1 a
                   then Returned (Some (unsigned_int (mtu e.2), trustedPathId e.2))
                   else Returned None)).
  - by destruct (for_range _ 0 _) as [[[m t]|] | |].
  - intros k. destruct (array_get (_physicalPathConfig T) k) as [e | |]; cbn; try done.
    by destruct (containsAddress e.1 a).
Qed.

(** X12.  On a well-formed table, when some configured entry's subnet
    contains [a], the id [getOutboundPathTrust(a)] gives for sending to [a]
    is an id [shouldInboundPathBeTrusted] accepts from [a]. *)
Theorem outbound_id_is_trusted_inbound (T : Topology) (a : InetAddress) :
  config_wf T →
  (∃ i e, configured_at T i e ∧ containsAddress e.1 a = true) →
  ∃ t, getOutboundPathTrust T a = Returned t ∧
       shouldInboundPathBeTrusted T a t = Returned true.
Proof.
  intros Hwf (i0 & e0 & Hcfg0 & Hin0). unfold getOutboundPathTrust.
  destruct (config_scan T (λ e, containsAddress e.1 a) (λ e, trustedPathId e.2) Hwf)
    as [[_ Hnone] | (i & e & Hcfg & Hc & _ & Hrun)].
  { specialize (Hnone i0 e0 Hcfg0). cbn in Hnone. congruence. }
  cbn in Hrun. rewrite Hrun. cbn. exists (trustedPathId e.2). split; [done |].
  unfold shouldInboundPathBeTrusted.
  destruct (config_scan T
              (λ e', (trustedPathId e'.2 =? trustedPathId e.2) && containsAddress e'.1 a)
              (λ _, true) Hwf)
    as [[_ Hnone] | (i' & e' & _ & _ & _ & Hrun')].
  - specialize (Hnone i e Hcfg). cbn in Hnone. by rewrite Hc, Z.eqb_refl in Hnone.
  - cbn in Hrun'. by rewrite Hrun'.
Qed.

(** ** Iteration over the registry *)

(** A strongly sorted vector is ordered index by index. *)
Lemma StronglySorted_lookup_le (v : list Z) i j x y :
  StronglySorted Z.le v → (i ≤ j)%nat → v !! i = Some x → v !! j = Some y → x ≤ y.
Proof.
  intros Hsorted. revert i j. induction Hsorted as [|z v Hsorted IH Hall]; intros i j Hij.
  - by rewrite lookup_nil.
  - destruct i as [|i], j as [|j]; cbn; try lia.
    + intros [= <-] [= <-]. lia.
    + intros [= <-] Hy. by apply (proj1 (Forall_lookup _ _) Hall j y).
    + apply IH. lia.
Qed.

(** [std::lower_bound] on a sorted vector, started on a range that brackets
    the answer, stays in range and returns the partition point: everything
    before it is below [value], everything from it on is not. *)
Lemma lower_bound_spec (v : list Z) (value : Z) fuel first count :
  StronglySorted Z.le v →
  (count ≤ fuel)%nat → (first + count ≤ length v)%nat →
  (∀ j x, (j < first)%nat → v !! j = Some x → x < value) →
  (∀ j x, (first + count ≤ j)%nat → v !! j = Some x → value ≤ x) →
  ∃ i, lower_bound v value fuel first count = Returned i ∧
       (i ≤ length v)%nat ∧
       (∀ j x, (j < i)%nat → v !! j = Some x → x < value) ∧
       (∀ j x, (i ≤ j)%nat → v !! j = Some x → value ≤ x).
Proof.
  intros Hsorted. revert first count.
  induction fuel as [|fuel IH]; intros first count Hfuel Hrange Hbelow Habove.
  - exists first. replace count with 0%nat in * by lia.
    rewrite Nat.add_0_r in Habove. repeat split; [lia | done | done].
  - cbn [lower_bound]. destruct (Nat.eqb_spec count 0) as [-> | Hpos].
    { exists first. rewrite Nat.add_0_r in Habove. repeat split; [lia | done | done]. }
    assert (count / 2 < count)%nat as Hstep by (apply Nat.div_lt; lia).
    destruct (lookup_lt_is_Some_2 v (first + count / 2)) as [x Hx]; [lia |].
    unfold array_get. rewrite Hx. unfold mbind, outcome_bind.
    destruct (Z.ltb_spec x value) as [Hlt | Hge].
    + apply IH; [lia | lia | | ].
      * intros j y Hj Hy.
        pose proof (StronglySorted_lookup_le v j (first + count / 2) y x Hsorted
                      ltac:(lia) Hy Hx). lia.
      * intros j y Hj Hy. apply (Habove j y); [lia | done].
    + apply IH; [lia | lia | done |].
      intros j y Hj Hy.
      pose proof (StronglySorted_lookup_le v (first + count / 2) j x y Hsorted
                    ltac:(lia) Hx Hy). lia.
Qed.

(** [std::binary_search] on a sorted vector tells whether the value is in
    it. *)
Lemma binary_search_spec (v : list Z) (value : Z) :
  StronglySorted Z.le v →
  binary_search v value = Returned (bool_decide (value ∈ v)).
Proof.
  intros Hsorted. unfold binary_search.
  destruct (lower_bound_spec v value (length v) 0 (length v) Hsorted)
    as (i & -> & Hi & Hbelow & Habove); [lia | lia | intros; lia | |].
  { intros j x Hj Hx. apply lookup_lt_Some in Hx. lia. }
  cbn. destruct (Nat.eqb_spec i (length v)) as [-> | Hne].
  - f_equal. symmetry. apply bool_decide_eq_false.
    intros (j & Hj)%list_elem_of_lookup.
    pose proof (lookup_lt_Some _ _ _ Hj). specialize (Hbelow j value ltac:(lia) Hj). lia.
  - destruct (lookup_lt_is_Some_2 v i) as [x Hx]; [lia |].
    unfold array_get. rewrite Hx. cbn. f_equal.
    pose proof (Habove i x ltac:(lia) Hx) as Hle.
    destruct (Z.ltb_spec value x) as [Hlt | Hge]; cbn; symmetry.
    + apply bool_decide_eq_false. intros (j & Hj)%list_elem_of_lookup.
      destruct (decide (j < i)%nat) as [Hji | Hji].
      * specialize (Hbelow j value Hji Hj). lia.
      * pose proof (StronglySorted_lookup_le v i j x value Hsorted ltac:(lia) Hx Hj). lia.
    + apply bool_decide_eq_true. assert (x = value) as <- by lia.
      apply list_elem_of_lookup. by exists i.
Qed.

(** Visitors that answer alike are visited alike. *)
Lemma while_next_ext {E S} (body body' : E → S → outcome (bool * S)) es s :
  (∀ e s, body e s = body' e s) → while_next body es s = while_next body' es s.
Proof.
  intros Hsame. revert s. induction es as [|e es IH]; intros s; [done |].
  cbn. rewrite Hsame. destruct (body' e s) as [[[] s'] | |]; cbn; first [done | apply IH].
Qed.

(** A visitor that never asks to stop is called on every entry. *)
Lemma while_next_all {E S} (f : E → S → bool * S) es s :
  (∀ e s, (f e s).1 = true) →
  while_next (λ e s, Returned (f e s)) es s = Returned (foldl (λ s e, (f e s).2) s es).
Proof.
  intros Hgo. revert s. induction es as [|e es IH]; intros s; [done |].
  cbn. rewrite Hgo. apply IH.
Qed.

(** What a visitor's log looks like after the loop. *)
Lemma while_next_logging {St} (f : SharedPtr Peer → St → bool * St)
    (es : list (Address * SharedPtr Peer)) (s : St) l0 :
  ∃ s' log,
    while_next (λ e st, Returned (logging f e.2 st)) es (s, l0) = Returned (s', l0 ++ log) ∧
    while_next (λ e s, Returned (f e.2 s)) es s = Returned s' ∧
    log.*1 `prefix_of` es.*2 ∧
    (∀ i sp, log !! i = Some (sp, false) → S i = length log) ∧
    ((length log < length es)%nat → ∃ sp, last log = Some (sp, false)).
Proof.
  revert s l0. induction es as [|e es IH]; intros s l0.
  - exists s, []. rewrite app_nil_r. repeat split; try done. cbn. lia.
  - cbn [while_next]. unfold logging at 1. cbn.
    destruct (f e.2 s) as [[] s1] eqn:Hf; cbn.
    + destruct (IH s1 (l0 ++ [(e.2, true)])) as (s' & log & Hrun & Hplain & Hpre & Hfalse & Hlast).
      exists s', ((e.2, true) :: log). rewrite <- app_assoc in Hrun.
      split; [done |]. split; [done |]. split; [by apply prefix_cons |]. split.
      * intros [|i] sp; cbn; [done |]. intros Hi. f_equal. by eapply Hfalse.
      * cbn. intros Hlen. destruct Hlast as [sp Hsp]; [lia |].
        exists sp. by rewrite last_cons, Hsp.
    + exists s1, [(e.2, false)]. split; [done |]. split; [done |].
      split; [apply prefix_cons, prefix_nil |]. split.
      * by intros [|i] sp; cbn.
      * intros _. by exists e.2.
Qed.

(** X13.  A visitor that never asks to stop is called by [eachPeer] on
    every slot of the registry: as many calls as there are slots, on exactly
    the handles the registry holds; and where every peer sits under its own
    address and no slot is null, no peer is visited twice. *)
Theorem eachPeer_visits_every_peer {S} (f : SharedPtr Peer → S → bool * S)
    (T : Topology) (s : S) :
  (∀ sp s, (f sp s).1 = true) →
  eachPeer f T s = Returned (foldl (λ s sp, (f sp s).2) s (eachPeer_order T)) ∧
  length (eachPeer_order T) = size (_peers T) ∧
  (∀ sp, sp ∈ eachPeer_order T ↔ ∃ a, _peers T !! a = Some sp) ∧
  (peers_keyed T → peers_wf T → NoDup (eachPeer_order T)).
Proof.
  intros Hgo. unfold eachPeer, eachPeer_order, Hashtable_entries. repeat split.
  - rewrite (while_next_all (λ e s, f e.2 s)) by (intros; apply Hgo).
    f_equal. generalize s. induction (map_to_list (_peers T)) as [|e es IH]; [done |].
    intros s0. cbn. apply IH.
  - by rewrite length_fmap, length_map_to_list.
  - intros ([a sp'] & -> & Hin)%list_elem_of_fmap. exists a. by apply elem_of_map_to_list.
  - intros [a Ha]. apply list_elem_of_fmap. exists (a, sp). split; [done |].
    by apply elem_of_map_to_list.
  - intros Hkeyed Hwf. apply NoDup_fmap_2_strong; [| apply NoDup_map_to_list].
    intros [a sp] [a' sp'] Hin Hin' Heq. cbn in Heq. subst sp'.
    apply elem_of_map_to_list in Hin, Hin'. destruct sp as [p|]; [| by destruct (Hwf a)].
    by rewrite <- (Hkeyed a p Hin), <- (Hkeyed a' p Hin').
Qed.

(** X14.  [eachPeer] calls the visitor on the slots in iteration order and
    stops at the first answer false: the handles visited are a prefix of the
    order, no answer but the last is false, and when slots are left
    unvisited the last answer was false. *)
Theorem eachPeer_stops_at_first_false {St} (f : SharedPtr Peer → St → bool * St)
    (T : Topology) (s : St) :
  ∃ s' log,
    eachPeer (logging f) T (s, []) = Returned (s', log) ∧
    eachPeer f T s = Returned s' ∧
    log.*1 `prefix_of` eachPeer_order T ∧
    (∀ i sp, log !! i = Some (sp, false) → S i = length log) ∧
    ((length log < length (eachPeer_order T))%nat → ∃ sp, last log = Some (sp, false)).
Proof.
  unfold eachPeer, eachPeer_order.
  destruct (while_next_logging f (Hashtable_entries (_peers T)) s [])
    as (s' & log & Hrun & Hplain & Hpre & Hfalse & Hlast).
  exists s', log. rewrite length_fmap. done.
Qed.

Section WithRoot.
Variable Peer_ptr : Peer → Z.

(** The flag [eachPeerWithRoot] hands to the visitor, computed by sorting and
    binary search, is whether the handle's pointer is among the pointers of
    the ranked list. *)
Lemma eachPeerWithRoot_flag {S} (f : SharedPtr Peer → bool → S → bool * S)
    (T : Topology) (s : S) :
  eachPeerWithRoot Peer_ptr f T s
  = eachPeer (λ sp, f sp (bool_decide (SharedPtr_ptr Peer_ptr sp
                                         ∈ SharedPtr_ptr Peer_ptr <$> _rootPeers T))) T s.
Proof.
  unfold eachPeerWithRoot, eachPeer. apply while_next_ext. intros e s0.
  rewrite binary_search_spec by apply (StronglySorted_merge_sort _).
  cbn. do 2 f_equal. apply bool_decide_ext. by rewrite merge_sort_Permutation.
Qed.

(** X15.  When distinct Peer objects have distinct, non-null addresses, the
    flag [eachPeerWithRoot] passes along with a handle is true exactly when
    that handle is in the ranked root list. *)
Theorem eachPeerWithRoot_flags_roots {S} (f : SharedPtr Peer → bool → S → bool * S)
    (T : Topology) (s : S) :
  Peer_ptr_wf Peer_ptr →
  ∃ flag : SharedPtr Peer → bool,
    (∀ sp, flag sp = true ↔ sp ∈ _rootPeers T) ∧
    eachPeerWithRoot Peer_ptr f T s = eachPeer (λ sp, f sp (flag sp)) T s.
Proof.
  intros [Hinj Hnonnull].
  exists (λ sp, bool_decide (SharedPtr_ptr Peer_ptr sp
                              ∈ SharedPtr_ptr Peer_ptr <$> _rootPeers T)).
  split; [| apply eachPeerWithRoot_flag].
  intros sp. rewrite bool_decide_eq_true, list_elem_of_fmap. split.
  - intros (sp' & Heq & Hin). replace sp with sp'; [done |].
    destruct sp as [p|], sp' as [p'|]; cbn in Heq.
    + f_equal. by apply Hinj.
    + by destruct (Hnonnull p).
    + by destruct (Hnonnull p').
    + done.
  - intros Hin. by exists sp.
Qed.

(** X16.  A visitor that ignores the flag is served by [eachPeerWithRoot] as
    by [eachPeer]: the same calls in the same order, and the sorting and
    searching never leave the vector. *)
Theorem eachPeerWithRoot_is_eachPeer {S} (f : SharedPtr Peer → S → bool * S)
    (T : Topology) (s : S) :
  eachPeerWithRoot Peer_ptr (λ sp _, f sp) T s = eachPeer f T s.
Proof. apply eachPeerWithRoot_flag. Qed.

End WithRoot.

End MoreFacts.

(** * The concrete instance: the theorems at work *)

Section DemoFacts.
Import Demo.

Example trusted_example :
  shouldInboundPathBeTrusted fresh (ip 10 1 2 3, 0%N) 42 = Returned true ∧
  shouldInboundPathBeTrusted fresh (ip 10 200 2 3, 0%N) 7 = Returned false ∧
  shouldInboundPathBeTrusted fresh (ip 172 16 1 1, 0%N) 42 = Returned false.
Proof. by vm_compute. Qed.

Example outbound_example :
  getOutboundPathTrust fresh (ip 10 1 2 3, 0%N) = Returned 42 ∧
  getOutboundPathTrust fresh (ip 172 16 1 1, 0%N) = Returned 0 ∧
  getOutboundPathInfo fresh (ip 10 1 2 3, 0%N) 1 2 = Returned (9000, 42) ∧
  getOutboundPathInfo fresh (ip 172 16 1 1, 0%N) 1 2 = Returned (1, 2).
Proof. by vm_compute. Qed.

Lemma shouldInboundPathBeTrusted_iff_witness :
  config_wf fresh ∧
  ∃ b, shouldInboundPathBeTrusted fresh (ip 192 168 1 1, 0%N) 7 = Returned b ∧
       (b = true ↔ ∃ i e, configured_at fresh i e ∧
                          containsAddress e.1 (ip 192 168 1 1, 0%N) = true ∧
                          trustedPathId e.2 = 7) ∧
       ((∀ i e, configured_at fresh i e →
                containsAddress e.1 (ip 192 168 1 1, 0%N) = true →
                trustedPathId e.2 ≠ 7) → b = false).
Proof.
  split; [split; [reflexivity | cbn; lia] |].
  apply (shouldInboundPathBeTrusted_iff fresh (ip 192 168 1 1, 0%N) 7).
  split; [reflexivity | cbn; lia].
Defined.

Lemma getOutboundPathTrust_first_witness :
  config_wf fresh ∧
  (∃ id, getOutboundPathTrust fresh (ip 10 1 2 3, 0%N) = Returned id) ∧
  (∀ i e, first_containing fresh (ip 10 1 2 3, 0%N) i e →
          getOutboundPathTrust fresh (ip 10 1 2 3, 0%N) = Returned (trustedPathId e.2)) ∧
  (none_containing fresh (ip 10 1 2 3, 0%N) →
   getOutboundPathTrust fresh (ip 10 1 2 3, 0%N) = Returned 0).
Proof.
  split; [split; [reflexivity | cbn; lia] |].
  apply (getOutboundPathTrust_first fresh (ip 10 1 2 3, 0%N)).
  split; [reflexivity | cbn; lia].
Defined.

Lemma getOutboundPathInfo_frame_witness :
  config_wf fresh ∧
  (∃ out, getOutboundPathInfo fresh (ip 172 16 1 1, 0%N) 1280 99 = Returned out) ∧
  (none_containing fresh (ip 172 16 1 1, 0%N) →
   getOutboundPathInfo fresh (ip 172 16 1 1, 0%N) 1280 99 = Returned (1280, 99)) ∧
  (∀ i e, first_containing fresh (ip 172 16 1 1, 0%N) i e →
          getOutboundPathInfo fresh (ip 172 16 1 1, 0%N) 1280 99
          = Returned (unsigned_int (mtu e.2), trustedPathId e.2) ∧
          (0 ≤ mtu e.2 < 2 ^ 32 →
           getOutboundPathInfo fresh (ip 172 16 1 1, 0%N) 1280 99
           = Returned (mtu e.2, trustedPathId e.2))).
Proof.
  split; [split; [reflexivity | cbn; lia] |].
  apply (getOutboundPathInfo_frame fresh (ip 172 16 1 1, 0%N) 1280 99).
  split; [reflexivity | cbn; lia].
Defined.

Example getOutboundPathInfo_negative_mtu :
  getOutboundPathInfo negative_mtu (ip 10 1 2 3, 0%N) 1280 99 = Returned (4294967295, 42) ∧
  getOutboundPathInfo negative_mtu (ip 172 16 1 1, 0%N) 1280 99 = Returned (1280, 99).
Proof. by vm_compute. Qed.

Lemma getPath_canonical_witness :
  getPath true 3 endpoint world0 = (Returned (Some first_path), cached_once) ∧
  do_calls more_calls cached_once = (Returned tt, later) ∧
  getPath false 3 endpoint later = (Returned (Some first_path), later) ∧
  ∃ news, Path_heap later = Path_heap cached_once ++ news ∧
          Forall (λ o, Path_key o ≠ Path_HashKey 3 endpoint) news.
Proof.
  assert (getPath true 3 endpoint world0 = (Returned (Some first_path), cached_once))
    as Hfirst by (apply run_eq; [by vm_compute | done]).
  assert (do_calls more_calls cached_once = (Returned tt, later))
    as Hrun by (apply run_eq; [by vm_compute | done]).
  split; [done |]. split; [done |].
  apply (getPath_canonical world0 cached_once later true false 3 endpoint
           first_path more_calls Hfirst Hrun).
Defined.

Example getPath_example :
  (getPath false 3 endpoint later).1 = Returned (Some first_path) ∧
  Path_heap later
  = [ first_path;
      {| Path_id := 1; Path_localSocket := 3; Path_addr := (ip 5 6 7 8, 9993%N) |};
      {| Path_id := 2; Path_localSocket := 4; Path_addr := endpoint |} ].
Proof. by vm_compute. Qed.

Example getPath_throwing_example :
  (getPath_throwing false true 3 endpoint world0).1 = Thrown ∧
  (getPath_throwing false false 3 endpoint world0).1 = Thrown ∧
  (getPath_throwing true false 3 endpoint world0).1 = Returned None ∧
  (getPath_throwing false false 3 endpoint after_failure).1 = Returned None ∧
  (getPath_throwing false true 3 endpoint after_failure).1
  = Returned (Some (next_Path after_failure 3 endpoint)).
Proof. by vm_compute. Qed.

Lemma getPath_failure_slot_witness :
  getPath false 3 endpoint world0 = (Returned None, after_failure) ∧
  _paths (self after_failure) = <[Path_HashKey 3 endpoint := None]> (_paths (self world0)) ∧
  _paths (self after_failure) !! Path_HashKey 3 endpoint = Some None ∧
  (_paths (self after_failure) ≠ _paths (self world0) ↔
   _paths (self world0) !! Path_HashKey 3 endpoint = None) ∧
  getPath false 3 endpoint after_failure = (Returned None, after_failure) ∧
  ∃ w'', getPath true 3 endpoint after_failure
         = (Returned (Some (next_Path after_failure 3 endpoint)), w'') ∧
         Path_heap w'' = Path_heap after_failure ++ [next_Path after_failure 3 endpoint] ∧
         cached_path w'' 3 endpoint = Some (next_Path after_failure 3 endpoint).
Proof.
  assert (getPath false 3 endpoint world0 = (Returned None, after_failure))
    as Hfail by (apply run_eq; [by vm_compute | done]).
  split; [done |].
  apply (getPath_failure_slot world0 after_failure false 3 endpoint Hfail).
Defined.

(** C10, as stated, fails: [after_failure] is the world a failed
    [getPath(3, endpoint)] left, and a second failing call on it returns the
    null handle and leaves the cache (the whole state) exactly as it was
    before that call. *)
Lemma getPath_failure_unchanged_counterexample :
  getPath false 3 endpoint world0 = (Returned None, after_failure) ∧
  getPath false 3 endpoint after_failure = (Returned None, after_failure) ∧
  _paths (self (getPath false 3 endpoint after_failure).2) = _paths (self after_failure).
Proof.
  assert (getPath false 3 endpoint world0 = (Returned None, after_failure))
    as Hfail by (apply run_eq; [by vm_compute | done]).
  pose proof (getPath_fails_again _ _ _ _ _ Hfail) as Hagain.
  split; [done |]. split; [done |]. by rewrite Hagain.
Qed.

Lemma add_canonical_witness :
  ∃ c w', add (Some alice') world_with_peers = (Returned (Some c), w') ∧
          get (self w') (Peer_address alice') = Some c ∧
          ((∀ q, ¬ registered (self world_with_peers) (Peer_address alice') q) →
           c = alice' ∧
           _peers (self w')
           = <[Peer_address alice' := Some alice']> (_peers (self world_with_peers))) ∧
          (∀ q, registered (self world_with_peers) (Peer_address alice') q →
                c = q ∧ w' = world_with_peers).
Proof. apply (add_canonical (env:=collaborators) alice' world_with_peers). Defined.

Example add_example :
  (add (Some alice') world_with_peers).1 = Returned (Some alice) ∧
  get (self (add (Some alice') world_with_peers).2) 11%N = Some alice ∧
  (add (Some alice) world0).1 = Returned (Some alice) ∧
  get (self (add (Some alice) world0).2) 11%N = Some alice.
Proof. by vm_compute. Qed.

Lemma getIdentity_cases_witness :
  (13%N = Identity_address (_myIdentity with_peers) →
   getIdentity with_peers 13%N = Returned (_myIdentity with_peers)) ∧
  (13%N ≠ Identity_address (_myIdentity with_peers) →
   (∀ p, registered with_peers 13%N p →
         getIdentity with_peers 13%N = Returned (Peer_identity p)) ∧
   (peers_wf with_peers → (∀ p, ¬ registered with_peers 13%N p) →
    getIdentity with_peers 13%N = Returned Identity_null)).
Proof. apply (getIdentity_cases with_peers 13%N). Defined.

Example getIdentity_example :
  getIdentity with_peers 5%N = Returned 5%N ∧
  getIdentity fresh 5%N = Returned 5%N ∧
  getIdentity with_peers 12%N = Returned 12%N ∧
  getIdentity with_peers 13%N = Returned 0%N.
Proof. by vm_compute. Qed.

Example findRelayTo_example :
  findRelayTo (rankRoots 0 (addRoot 12%N (addRoot 11%N with_peers))) 7 11%N
  = Returned (Some bob) ∧
  root (rankRoots 0 (addRoot 12%N (addRoot 11%N with_peers))) = Returned (Some bob) ∧
  findRelayTo fresh 7 11%N = Returned None.
Proof. by vm_compute. Qed.


Example rankRoots_example :
  _rootPeers (do_root_calls root_calls with_peers) = [Some bob] ∧
  _rootPeers (do_root_calls [AddRoot 11%N; AddRoot 13%N; AddRoot 12%N; RankRoots 0] with_peers)
  = [Some bob; Some alice] ∧
  elements (added_since_rank root_calls with_peers) = [] ∧
  _rootPeers (do_root_calls pending_calls with_peers) = [Some bob] ∧
  elements (_roots (do_root_calls pending_calls with_peers)) = [12%N; 13%N; 11%N] ∧
  elements (added_since_rank pending_calls with_peers) = [13%N; 11%N].
Proof. by vm_compute. Qed.


End DemoFacts.

(** * The concrete instance: the further properties at work *)

Section DemoMoreFacts.
Import Demo.

Lemma peer_registration_permanent_witness :
  get (self world_with_peers) 11%N = Some alice ∧
  do_calls peer_calls world_with_peers = (Returned tt, after_peer_calls) ∧
  get (self after_peer_calls) 11%N = Some alice ∧
  ∀ p, Peer_address p = 11%N →
       add (Some p) after_peer_calls = (Returned (Some alice), after_peer_calls).
Proof.
  assert (get (self world_with_peers) 11%N = Some alice) as Hget by (by vm_compute).
  assert (do_calls peer_calls world_with_peers = (Returned tt, after_peer_calls))
    as Hrun by (apply run_eq; [by vm_compute | done]).
  split; [done |]. split; [done |].
  apply (peer_registration_permanent (env:=collaborators) peer_calls 11%N alice world_with_peers
           after_peer_calls Hget Hrun).
Defined.

Lemma registry_keyed_by_address_witness :
  peers_keyed (self world0) ∧
  do_calls first_calls world0 = (Returned tt, after_first_calls) ∧
  ∀ a p, get (self after_first_calls) a = Some p → Peer_address p = a.
Proof.
  assert (peers_keyed (self world0)) as Hkeyed.
  { intros a p. unfold registered. cbn. by rewrite lookup_empty. }
  assert (do_calls first_calls world0 = (Returned tt, after_first_calls))
    as Hrun by (apply run_eq; [by vm_compute | done]).
  split; [done |]. split; [done |].
  apply (registry_keyed_by_address (env:=collaborators) first_calls world0 after_first_calls Hkeyed Hrun).
Defined.

Lemma getIdentity_defined_witness :
  peers_wf (self world0) ∧
  do_calls first_calls world0 = (Returned tt, after_first_calls) ∧
  ∃ id, getIdentity (self after_first_calls) 13%N = Returned id.
Proof.
  assert (peers_wf (self world0)) as Hwf.
  { intros a. cbn. by rewrite lookup_empty. }
  assert (do_calls first_calls world0 = (Returned tt, after_first_calls))
    as Hrun by (apply run_eq; [by vm_compute | done]).
  split; [done |]. split; [done |].
  apply (getIdentity_defined (env:=collaborators) first_calls world0 after_first_calls 13%N Hwf Hrun).
Defined.

Example registry_example :
  get (self after_first_calls) 11%N = Some alice ∧
  get (self after_first_calls) 12%N = Some bob ∧
  get (self after_first_calls) 13%N = None ∧
  getIdentity (self after_first_calls) 12%N = Returned 12%N.
Proof. by vm_compute. Qed.


Lemma getPath_returns_path_of_key_witness :
  paths_keyed world0 ∧
  do_calls all_calls world0 = (Returned tt, latest) ∧
  (getPath false 3 endpoint latest).1 = Returned (Some first_path) ∧
  Path_key first_path = Path_HashKey 3 endpoint.
Proof.
  assert (paths_keyed world0) as Hkeyed.
  { intros k p. cbn. by rewrite lookup_empty. }
  assert (do_calls all_calls world0 = (Returned tt, latest))
    as Hrun by (apply run_eq; [by vm_compute | done]).
  assert ((getPath false 3 endpoint latest).1 = Returned (Some first_path))
    as Hget by (by vm_compute).
  split; [done |]. split; [done |]. split; [done |].
  apply (getPath_returns_path_of_key (env:=collaborators) all_calls world0 latest false 3 endpoint
           first_path Hkeyed Hrun Hget).
Defined.

Lemma distinct_keys_distinct_paths_witness :
  paths_keyed world0 ∧
  getPath true 3 endpoint world0 = (Returned (Some first_path), cached_once) ∧
  do_calls more_calls cached_once = (Returned tt, later) ∧
  (getPath false 4 endpoint later).1 = Returned (Some third_path) ∧
  Path_HashKey 3 endpoint ≠ Path_HashKey 4 endpoint ∧
  first_path ≠ third_path.
Proof.
  assert (paths_keyed world0) as Hkeyed.
  { intros k p. cbn. by rewrite lookup_empty. }
  assert (getPath true 3 endpoint world0 = (Returned (Some first_path), cached_once))
    as Hfirst by (apply run_eq; [by vm_compute | done]).
  assert (do_calls more_calls cached_once = (Returned tt, later))
    as Hrun by (apply run_eq; [by vm_compute | done]).
  assert ((getPath false 4 endpoint later).1 = Returned (Some third_path))
    as Hsecond by (by vm_compute).
  assert (Path_HashKey 3 endpoint ≠ Path_HashKey 4 endpoint) as Hne by (by cbn).
  split; [done |]. split; [done |]. split; [done |]. split; [done |]. split; [done |].
  apply (distinct_keys_distinct_paths (env:=collaborators) more_calls world0 cached_once later true false
           3 4 endpoint endpoint first_path third_path Hkeyed Hfirst Hrun Hsecond Hne).
Defined.

Lemma lookups_read_configured_entries_witness :
  _numConfiguredPhysicalPaths fresh = _numConfiguredPhysicalPaths fresh_padded ∧
  configured_entries fresh = configured_entries fresh_padded ∧
  shouldInboundPathBeTrusted fresh (ip 172 16 1 1, 0%N) 99
  = shouldInboundPathBeTrusted fresh_padded (ip 172 16 1 1, 0%N) 99 ∧
  getOutboundPathTrust fresh (ip 172 16 1 1, 0%N)
  = getOutboundPathTrust fresh_padded (ip 172 16 1 1, 0%N) ∧
  getOutboundPathInfo fresh (ip 172 16 1 1, 0%N) 1280 0
  = getOutboundPathInfo fresh_padded (ip 172 16 1 1, 0%N) 1280 0.
Proof.
  split; [reflexivity |]. split; [reflexivity |].
  apply (lookups_read_configured_entries (env:=collaborators) fresh fresh_padded (ip 172 16 1 1, 0%N) 99 1280 0);
    reflexivity.
Defined.

Lemma outbound_id_is_trusted_inbound_witness :
  config_wf fresh ∧
  (∃ i e, configured_at fresh i e ∧ containsAddress e.1 (ip 10 1 2 3, 0%N) = true) ∧
  ∃ t, getOutboundPathTrust fresh (ip 10 1 2 3, 0%N) = Returned t ∧
       shouldInboundPathBeTrusted fresh (ip 10 1 2 3, 0%N) t = Returned true.
Proof.
  assert (config_wf fresh) as Hwf by (split; [reflexivity | cbn; lia]).
  assert (∃ i e, configured_at fresh i e ∧ containsAddress e.1 (ip 10 1 2 3, 0%N) = true)
    as Hin.
  { exists 0%nat, ((ip 10 0 0 0, 8%N), {| trustedPathId := 42; mtu := 9000 |}).
    split; [split; [cbn; lia | reflexivity] | reflexivity]. }
  split; [done |]. split; [done |].
  apply (outbound_id_is_trusted_inbound (env:=collaborators) fresh (ip 10 1 2 3, 0%N) Hwf Hin).
Defined.

Lemma eachPeer_visits_every_peer_witness :
  (∀ sp n, (counting sp n).1 = true) ∧
  eachPeer counting with_peers 0%nat
  = Returned (foldl (λ n sp, (counting sp n).2) 0%nat (eachPeer_order with_peers)) ∧
  length (eachPeer_order with_peers) = size (_peers with_peers) ∧
  (∀ sp, sp ∈ eachPeer_order with_peers ↔ ∃ a, _peers with_peers !! a = Some sp) ∧
  (peers_keyed with_peers → peers_wf with_peers → NoDup (eachPeer_order with_peers)).
Proof.
  assert (∀ sp n, (counting sp n).1 = true) as Hgo by done.
  split; [done |].
  apply (eachPeer_visits_every_peer (env:=collaborators) counting with_peers 0%nat Hgo).
Defined.

Lemma ptr_wf : Peer_ptr_wf (env:=collaborators) ptr.
Proof.
  split; [| done]. intros [o i t] [o' i' t'] Heq. unfold ptr in Heq. cbn in Heq.
  injection Heq as Heq. apply (inj encode) in Heq. by injection Heq as -> -> ->.
Qed.

Lemma eachPeerWithRoot_flags_roots_witness :
  Peer_ptr_wf (env:=collaborators) ptr ∧
  ∃ flag : option peer → bool,
    (∀ sp, flag sp = true ↔ sp ∈ _rootPeers with_root) ∧
    eachPeerWithRoot (env:=collaborators) ptr recording with_root []
    = eachPeer (λ sp, recording sp (flag sp)) with_root [].
Proof.
  split; [exact ptr_wf |].
  apply (eachPeerWithRoot_flags_roots (env:=collaborators) ptr recording with_root []
           ptr_wf).
Defined.

Example eachPeer_example :
  eachPeer counting with_peers 0%nat = Returned 2%nat ∧
  eachPeer counting fresh 0%nat = Returned 0%nat ∧
  ∃ order, eachPeerWithRoot (env:=collaborators) ptr recording with_root []
           = Returned order ∧
           order ≡ₚ [(Some alice, false); (Some bob, true)].
Proof.
  split; [by vm_compute |]. split; [by vm_compute |].
  eexists. split; [by vm_compute |]. apply Permutation_swap.
Qed.

End DemoMoreFacts.
